(** * Networking_training: message container, queues and I/O-thread owner

    A shallow embedding of the C++ sources

    - [Network_framework/Source/Message/Message.h]        (module [Message])
    - [Networking_training/Networking/Utility/Thread_safe_deque.h]
                                                          (module [Thread_safe_deque])
    - [Network_framework/Source/Net_user/Net_user.h]      (module [Net_user])
    - [Networking_training/Networking/Connection/Client_connection.h]
                                                          (module [Client_connection])

    Member functions that mutate [*this] and may throw become state
    transformers that return an outcome together with the state the object
    is left in, so that what a throwing call has already done to the object
    stays visible. *)

From Stdlib Require Import ZArith Lia String.
From stdpp Require Import base list.
From coqutil Require Import Byte Word.Interface Word.Properties Word.Naive.
From coqutil Require Import Word.LittleEndianList.

Local Open Scope Z_scope.

(** ** The C++ fragments the sources rely on *)

Module Cxx.

(** [<stdexcept>]: the three exception classes the sources throw, with the
    [what()] string where the source gives one ([std::vector::at] leaves
    it to the implementation), and [std::bad_alloc] of [<new>], which
    [std::string::resize] throws when its allocation fails. *)
Inductive exception : Type :=
| length_error (what : string)
| out_of_range
| runtime_error (what : string)
| bad_alloc.

Inductive outcome (A : Type) : Type :=
| Returned (a : A)
| Thrown (e : exception).
Arguments Returned {A} a.
Arguments Thrown {A} e.

(** [size_t] is the 64-bit unsigned type of the target; sums and
    differences of sizes wrap modulo [2^64]. *)
Definition size_t_bits : Z := 64.
Definition size_t_wrap (z : Z) : Z := z mod 2 ^ size_t_bits.

(** The unsigned integer types a header size field can be declared as. *)
Inductive unsigned_integral : Type := uint8_t | uint16_t | uint32_t | uint64_t.

Definition bit_width (t : unsigned_integral) : Z :=
  match t with
  | uint8_t => 8
  | uint16_t => 16
  | uint32_t => 32
  | uint64_t => 64
  end.

(** [std::numeric_limits<T>::max()] and [static_cast<T>(value)] of an
    unsigned value. *)
Definition numeric_limits_max (t : unsigned_integral) : Z := 2 ^ bit_width t - 1.
Definition static_cast (t : unsigned_integral) (value : Z) : Z := value mod 2 ^ bit_width t.

(** What the standard leaves to the implementation of [std::string] and
    to the state of the free store: [max_size()], the [what()] of the
    [std::length_error] thrown beyond it, and whether a string of [n]
    characters can be given its storage when [resize(n)] asks for it. *)
Class String_implementation : Type := {
  string_max_size : Z;
  string_too_long : string;
  allocates : Z -> bool
}.

(** [output.resize(n)] on a default-constructed [std::string output]:
    nothing to do for [n == 0]; otherwise the length is checked against
    [max_size()] and the storage is obtained. The outcome is the exception
    thrown, if any. *)
Definition string_resize `{String_implementation} (n : Z) : option exception :=
  if n =? 0 then None
  else if n >? string_max_size then Some (length_error string_too_long)
  else if negb (allocates n) then Some bad_alloc
  else None.

(** The implementation the concrete examples run on: libstdc++ on a 64-bit
    target, where [max_size()] is [2^62 - 1], and a free store that grants
    what fits in a 47-bit user address space. *)
#[export] Instance libstdcxx_64 : String_implementation := {|
  string_max_size := 2 ^ 62 - 1;
  string_too_long := "basic_string::_M_replace_aux";
  allocates n := n <? 2 ^ 47
|}.

(** [std::is_standard_layout_v<Data_type>]: a type whose objects occupy
    [sizeof] bytes that [memcpy] copies out of and back into an object. *)
Class Standard_layout (Data_type : Type) : Type := {
  sizeof : nat;
  object_bytes : Data_type -> list byte;
  from_bytes : list byte -> Data_type
}.
Arguments sizeof Data_type {_}.

(** What the C++ object model guarantees of such a type: [sizeof] is never
    zero, the object representation has [sizeof] bytes, and copying the
    representation back yields the object. *)
Class Standard_layout_ok {Data_type : Type} (layout : Standard_layout Data_type) : Prop := {
  sizeof_positive : (0 < sizeof Data_type)%nat;
  object_bytes_length : forall data : Data_type, length (object_bytes data) = sizeof Data_type;
  from_object_bytes : forall data : Data_type, from_bytes (object_bytes data) = data
}.

(** [char]: one byte. *)
#[export] Instance char_layout : Standard_layout byte := {|
  sizeof := 1;
  object_bytes c := [c];
  from_bytes buffer := hd Byte.x00 buffer
|}.

(** [uint64_t]: eight bytes, least significant first (the targets of the
    repository are little-endian). *)
Definition uint64 : Type := Naive.word64.

#[export] Instance uint64_layout : Standard_layout uint64 := {|
  sizeof := 8;
  object_bytes v := le_split 8 (word.unsigned v);
  from_bytes buffer := word.of_Z (le_combine buffer)
|}.

End Cxx.

(** ** Utility/Thread_safe_deque.h *)

Module Thread_safe_deque.

Section Thread_safe_deque.

Context {T : Type}.

(** [std::deque<T> m_queue], front first. Every member function holds
    [std::scoped_lock lock(m_mutex)] from its first statement to its return,
    so calls on one deque take effect one at a time; a call is a function
    from the queue before it to the queue after it. *)
Definition Thread_safe_deque : Type := list T.

(** [Thread_safe_deque() = default] *)
Definition create : Thread_safe_deque := [].

Definition front (q : Thread_safe_deque) : option T := head q.

Definition back (q : Thread_safe_deque) : option T := last q.

Definition push_front (item : T) (q : Thread_safe_deque) : Thread_safe_deque :=
  item :: q.

Definition push_back (item : T) (q : Thread_safe_deque) : Thread_safe_deque :=
  q ++ [item].

Definition empty (q : Thread_safe_deque) : bool :=
  match q with
  | [] => true
  | _ :: _ => false
  end.

Definition clear (q : Thread_safe_deque) : Thread_safe_deque := [].

(** [front()] and [pop_front()] of an empty [std::deque] are undefined; the
    model returns [None] there, and likewise at the back. *)
Definition pop_front (q : Thread_safe_deque) : option (T * Thread_safe_deque) :=
  match q with
  | [] => None
  | temp :: rest => Some (temp, rest)
  end.

Definition pop_back (q : Thread_safe_deque) : option (T * Thread_safe_deque) :=
  match last q with
  | None => None
  | Some temp => Some (temp, removelast q)
  end.

(** [n] calls of [push_back], then [n] calls of [pop_front] collecting what
    they return. *)
Definition push_back_all (items : list T) (q : Thread_safe_deque) : Thread_safe_deque :=
  foldl (fun q item => push_back item q) q items.

Fixpoint pop_front_n (n : nat) (q : Thread_safe_deque) : option (list T * Thread_safe_deque) :=
  match n with
  | O => Some ([], q)
  | S n' =>
      match pop_front q with
      | None => None
      | Some (temp, q') =>
          match pop_front_n n' q' with
          | None => None
          | Some (temps, q'') => Some (temp :: temps, q'')
          end
      end
  end.

(** Calls of [push_front] one after the other, and [n] calls of [pop_back]
    collecting what they return. *)
Definition push_front_all (items : list T) (q : Thread_safe_deque) : Thread_safe_deque :=
  foldl (fun q item => push_front item q) q items.

Fixpoint pop_back_n (n : nat) (q : Thread_safe_deque) : option (list T * Thread_safe_deque) :=
  match n with
  | O => Some ([], q)
  | S n' =>
      match pop_back q with
      | None => None
      | Some (temp, q') =>
          match pop_back_n n' q' with
          | None => None
          | Some (temps, q'') => Some (temp :: temps, q'')
          end
      end
  end.

End Thread_safe_deque.

Arguments Thread_safe_deque T : clear implicits.

End Thread_safe_deque.

(** ** Message/Message.h *)

Module Message.
Import Cxx.

(** Modelled from the spec: [Message_header.h] is not among the sources. The
    header is the "fixed-size prefix of a Message carrying id, internal id,
    and body size"; [Message.h] reads and writes its fields [m_id],
    [m_internal_id] and [m_size]. [m_size] holds a value of
    [Header_size_type]. *)
Record Message_header (Id_type Internal_id : Type) : Type := {
  m_id : Id_type;
  m_internal_id : Internal_id;
  m_size : Z
}.
Arguments m_id {Id_type Internal_id} _.
Arguments m_internal_id {Id_type Internal_id} _.
Arguments m_size {Id_type Internal_id} _.

(** [class Message]: [m_header] and [std::vector<char> m_body]. *)
Record Message (Id_type Internal_id : Type) : Type := {
  m_header : Message_header Id_type Internal_id;
  m_body : list byte
}.
Arguments m_header {Id_type Internal_id} _.
Arguments m_body {Id_type Internal_id} _.

Section Members.

Context {Id_type Internal_id : Type}.

(** [Header_size_type] is declared in [Message_header.h], which is not among
    the sources (the spec speaks of "a 32-bit or configurable width"); the
    members take it as a parameter. *)
Variable Header_size_type : unsigned_integral.

Local Abbreviation Message := (Message Id_type Internal_id).

(** A member function: run on the object, it returns or throws, and leaves
    the object in some state either way. *)
Definition Method (A : Type) : Type := Message -> outcome A * Message.

Definition ret {A} (a : A) : Method A := fun m => (Returned a, m).

Definition throw {A} (e : exception) : Method A := fun m => (Thrown e, m).

Definition bind {A B} (c : Method A) (k : A -> Method B) : Method B :=
  fun m =>
    match c m with
    | (Returned a, m') => k a m'
    | (Thrown e, m') => (Thrown e, m')
    end.

Notation "x <- c ;; k" := (bind c (fun x => k))
  (at level 100, c at next level, right associativity).
Notation "c ;; k" := (bind c (fun _ => k))
  (at level 100, right associativity).

(** [m_body.size()] *)
Definition body_size : Method Z :=
  fun m => (Returned (Z.of_nat (length (m_body m))), m).

Definition get_body : Method (list byte) :=
  fun m => (Returned (m_body m), m).

Definition set_body (body : list byte) : Method unit :=
  fun m => (Returned tt, {| m_header := m_header m; m_body := body |}).

(** [m_header.m_size = value] *)
Definition set_m_size (value : Z) : Method unit :=
  fun m =>
    (Returned tt,
     {| m_header := {| m_id := m_id (m_header m);
                       m_internal_id := m_internal_id (m_header m);
                       m_size := value |};
        m_body := m_body m |}).

(** The Message with the ids of [m], size field [size] and body [body]. *)
Definition with_contents (size : Z) (body : list byte) (m : Message) : Message :=
  {| m_header := {| m_id := m_id (m_header m);
                    m_internal_id := m_internal_id (m_header m);
                    m_size := size |};
     m_body := body |}.

(** [checked_cast<Cast_to>(value)] *)
Definition checked_cast (Cast_to : unsigned_integral) (value : Z) : Method Z :=
  let casted_value := static_cast Cast_to value in
  if negb (value =? casted_value)
  then throw (length_error "Value changed when casted")
  else ret casted_value.

(** [resize_body(new_size)]: [std::vector::resize] keeps the first
    [new_size] bytes and value-initialises (zeroes) the ones it adds. *)
Definition resize_body (new_size : Z) : Method unit :=
  body <- get_body ;;
  set_body (resize (Z.to_nat new_size) Byte.x00 body).

(** [&m_body.at(pos)]: [std::vector::at] throws [std::out_of_range] unless
    [pos < size()]. *)
Definition body_at (pos : Z) : Method nat :=
  size <- body_size ;;
  if pos >=? size then throw out_of_range else ret (Z.to_nat pos).

(** [std::memcpy(&m_body.at(pos), buffer, buffer_size)]. A copy that runs
    past the end of the body is undefined in C++ and [list_inserts] drops
    what would go there; [push_back_buffer] resizes the body first, so that
    its copy ends exactly at the end of the body. *)
Definition memcpy_to_body (pos : nat) (buffer : list byte) : Method unit :=
  body <- get_body ;;
  set_body (list_inserts pos buffer body).

(** [std::memcpy(buffer, &m_body.at(pos), buffer_size)] *)
Definition memcpy_from_body (pos : nat) (buffer_size : Z) : Method (list byte) :=
  body <- get_body ;;
  ret (take (Z.to_nat buffer_size) (drop pos body)).

(** [push_back_buffer(buffer, buffer_size)]; [buffer] is the
    [buffer_size] bytes the pointer refers to. *)
Definition push_back_buffer (buffer : list byte) : Method unit :=
  let buffer_size := Z.of_nat (length buffer) in
  size <- body_size ;;
  let new_size := size_t_wrap (size + buffer_size) in
  if new_size >? numeric_limits_max Header_size_type
  then throw (length_error "Storing too much data to message")
  else
    resize_body new_size ;;
    dst <- body_at size ;;
    memcpy_to_body dst buffer ;;
    final_size <- body_size ;;
    header_size <- checked_cast Header_size_type final_size ;;
    set_m_size header_size.

(** [push_back<Data_type>(data)] *)
Definition push_back {Data_type} `{Standard_layout Data_type} (data : Data_type) : Method unit :=
  push_back_buffer (object_bytes data).

(** [using Size_type = uint64_t] *)
Definition Size_type : Type := uint64.

(** [push_back<std::string_view>(string)]; [string.size()] is a [size_t]
    and [static_cast<Size_type>] of it keeps its value. *)
Definition push_back_string_view (string : list byte) : Method unit :=
  push_back_buffer string ;;
  push_back (word.of_Z (Z.of_nat (length string)) : Size_type).

(** [push_back<std::string>(string)] *)
Definition push_back_string (string : list byte) : Method unit :=
  push_back_string_view string.

(** [extract_to_buffer(buffer, buffer_size)], returning what it writes to
    [buffer]. *)
Definition extract_to_buffer (buffer_size : Z) : Method (list byte) :=
  size <- body_size ;;
  if buffer_size >? size
  then throw (length_error "Not enough data to extract")
  else
    let new_size := size_t_wrap (size - buffer_size) in
    src <- body_at new_size ;;
    buffer <- memcpy_from_body src buffer_size ;;
    resize_body new_size ;;
    final_size <- body_size ;;
    header_size <- checked_cast Header_size_type final_size ;;
    set_m_size header_size ;;
    ret buffer.

(** [extract<Data_type>()] *)
Definition extract (Data_type : Type) `{Standard_layout Data_type} : Method Data_type :=
  let data_size := Z.of_nat (sizeof Data_type) in
  buffer <- extract_to_buffer data_size ;;
  ret (from_bytes buffer).

(** [output.resize(extract<Size_type>())], leaving the Message alone. *)
Definition output_resize `{String_implementation} (n : Z) : Method unit :=
  match string_resize n with
  | Some e => throw e
  | None => ret tt
  end.

(** [extract<std::string>()]: [output.resize(n)] makes [output.size()] the
    extracted [n] or throws, and [extract_to_buffer] then fills [output]
    entirely. *)
Definition extract_string `{String_implementation} : Method (list byte) :=
  n <- extract Size_type ;;
  let output_size := word.unsigned n in
  output_resize output_size ;;
  extract_to_buffer output_size.

(** [clear()] *)
Definition clear : Method unit :=
  set_body [] ;;
  set_m_size 0.

Definition set_internal_id (new_internal_id : Internal_id) : Method unit :=
  fun m =>
    (Returned tt,
     {| m_header := {| m_id := m_id (m_header m);
                       m_internal_id := new_internal_id;
                       m_size := m_size (m_header m) |};
        m_body := m_body m |}).

Definition get_internal_id (m : Message) : Internal_id := m_internal_id (m_header m).

Definition get_id (m : Message) : Id_type := m_id (m_header m).

Definition set_id (new_id : Id_type) : Method unit :=
  fun m =>
    (Returned tt,
     {| m_header := {| m_id := new_id;
                       m_internal_id := m_internal_id (m_header m);
                       m_size := m_size (m_header m) |};
        m_body := m_body m |}).

Definition is_empty (m : Message) : bool :=
  match m_body m with
  | [] => true
  | _ :: _ => false
  end.

(** Modelled from the spec: a Message before anything is pushed. The body
    is [m_body = {}]; the header's default member initialisers are in
    [Message_header.h], and [body_size == body.length] is to hold of every
    Message, so [m_size] starts at zero. *)
Definition new_message (id : Id_type) (internal_id : Internal_id) : Message :=
  {| m_header := {| m_id := id; m_internal_id := internal_id; m_size := 0 |};
     m_body := [] |}.

End Members.

(** *** Sequences of calls on one Message *)

Section Calls.

Context {Id_type Internal_id : Type}.
Context `{String_implementation}.
Variable Header_size_type : unsigned_integral.

Local Abbreviation Message := (Message Id_type Internal_id).
Local Abbreviation Method := (@Method Id_type Internal_id).

(** A call that changes the Message through its public interface. *)
Inductive mutation : Type :=
| Push_back_buffer (buffer : list byte)
| Push_back (Data_type : Type) (layout : Standard_layout Data_type) (data : Data_type)
| Push_back_string (string : list byte)
| Extract_to_buffer (buffer_size : Z)
| Extract (Data_type : Type) (layout : Standard_layout Data_type)
| Extract_string
| Clear
| Resize_body (new_size : Z).

(** The Message after the call, whether the call returned or threw. *)
Definition mutate (call : mutation) (m : Message) : Message :=
  match call with
  | Push_back_buffer buffer => snd (push_back_buffer Header_size_type buffer m)
  | Push_back _ _ data => snd (push_back Header_size_type data m)
  | Push_back_string string => snd (push_back_string Header_size_type string m)
  | Extract_to_buffer buffer_size => snd (extract_to_buffer Header_size_type buffer_size m)
  | Extract Data_type _ => snd (extract Header_size_type Data_type m)
  | Extract_string => snd (extract_string Header_size_type m)
  | Clear => snd (clear m)
  | Resize_body new_size => snd (resize_body new_size m)
  end.

Definition mutate_all (calls : list mutation) (m : Message) : Message :=
  foldl (fun m call => mutate call m) m calls.

Definition is_resize_body (call : mutation) : bool :=
  match call with
  | Resize_body _ => true
  | _ => false
  end.

(** The bytes a push call copies from: they and the body are objects of one
    64-bit address space, so their sizes add up without wrapping. *)
Definition pushed_size (call : mutation) : Z :=
  match call with
  | Push_back_buffer buffer => Z.of_nat (length buffer)
  | Push_back _ _ data => Z.of_nat (length (object_bytes data))
  | Push_back_string string =>
      Z.of_nat (length string) + Z.of_nat (sizeof Size_type)
  | _ => 0
  end.

Definition in_address_space (m : Message) (call : mutation) : Prop :=
  Z.of_nat (length (m_body m)) + pushed_size call < 2 ^ size_t_bits.

Fixpoint all_in_address_space (m : Message) (calls : list mutation) : Prop :=
  match calls with
  | [] => True
  | call :: calls' =>
      in_address_space m call /\ all_in_address_space (mutate call m) calls'
  end.

(** The header's size field against the body. *)
Definition size_invariant (m : Message) : Prop :=
  m_size (m_header m) = Z.of_nat (length (m_body m)).

(** [m_size] holds a value of [Header_size_type]. *)
Definition size_field_in_range (m : Message) : Prop :=
  0 <= m_size (m_header m) <= numeric_limits_max Header_size_type.

(** [m'] has the application id and the internal id of [m]. *)
Definition same_ids (m m' : Message) : Prop :=
  m_id (m_header m') = m_id (m_header m)
  /\ m_internal_id (m_header m') = m_internal_id (m_header m).

(** What [extract<std::string>] throws when the length [n] it has read
    exceeds the bytes left: the exception of [output.resize(n)] if that
    throws, and else the one of [extract_to_buffer]. *)
Definition short_payload_exception (n : Z) : exception :=
  match string_resize n with
  | Some e => e
  | None => length_error "Not enough data to extract"
  end.

(** The length field on top of the body, as [extract<Size_type>] reads it. *)
Definition stored_length (m : Message) : Z :=
  word.unsigned
    (from_bytes (drop (length (m_body m) - sizeof Size_type) (m_body m)) : Size_type).

(** Both invariants of the data model: the size field equals the body
    length, and the body length is a value of [Header_size_type]. *)
Definition sized (m : Message) : Prop :=
  size_invariant m
  /\ Z.of_nat (length (m_body m)) <= numeric_limits_max Header_size_type.

(** A member function that leaves the ids alone, and one that keeps both
    invariants, whether it returns or throws. *)
Definition keeps_ids {A} (c : Method A) : Prop :=
  forall m, same_ids m (snd (c m)).

Definition keeps_sized {A} (c : Method A) : Prop :=
  forall m, sized m -> sized (snd (c m)).

(** [set_id(id)] and [set_internal_id(internal_id)], one after the other. *)
Definition with_ids (id : Id_type) (internal_id : Internal_id) (m : Message) : Message :=
  snd (set_internal_id internal_id (snd (set_id id m))).

(** A member function whose outcome does not depend on the ids, and which
    treats the rest of the Message the same whatever they are. *)
Definition ignores_ids {A} (c : Method A) : Prop :=
  forall id internal_id m,
    c (with_ids id internal_id m)
    = (fst (c m), with_ids id internal_id (snd (c m))).

(** A value handed to [operator<<]: of a standard-layout type, or a string. *)
Inductive value : Type :=
| Fixed (Data_type : Type) (layout : Standard_layout Data_type)
    (layout_ok : Standard_layout_ok layout) (data : Data_type)
| Text (string : list byte).

(** The template argument of the matching [extract]. *)
Inductive value_type : Type :=
| Fixed_type (Data_type : Type) (layout : Standard_layout Data_type)
    (layout_ok : Standard_layout_ok layout)
| Text_type.

Definition type_of (v : value) : value_type :=
  match v with
  | Fixed Data_type layout layout_ok _ => Fixed_type Data_type layout layout_ok
  | Text _ => Text_type
  end.

Definition push_value (v : value) : Method unit :=
  match v with
  | Fixed _ _ _ data => push_back Header_size_type data
  | Text string => push_back_string Header_size_type string
  end.

Definition extract_value (t : value_type) : Method value :=
  match t with
  | Fixed_type Data_type layout layout_ok =>
      bind (extract Header_size_type Data_type)
        (fun data => ret (Fixed Data_type layout layout_ok data))
  | Text_type =>
      bind (extract_string Header_size_type) (fun string => ret (Text string))
  end.

(** [message << v1 << v2 << ... << vn] *)
Fixpoint push_values (vs : list value) : Method unit :=
  match vs with
  | [] => ret tt
  | v :: vs' => bind (push_value v) (fun _ => push_values vs')
  end.

(** [n] extracts, collecting what they return in the order of the calls. *)
Fixpoint extract_values (ts : list value_type) : Method (list value) :=
  match ts with
  | [] => ret []
  | t :: ts' =>
      bind (extract_value t)
        (fun v => bind (extract_values ts') (fun vs => ret (v :: vs)))
  end.

(** The bytes a value is stored as at the end of the body. *)
Definition wire_bytes (v : value) : list byte :=
  match v with
  | Fixed _ _ _ data => object_bytes data
  | Text string =>
      string ++ object_bytes (word.of_Z (Z.of_nat (length string)) : Size_type)
  end.

Definition wire_size (v : value) : Z :=
  match v with
  | Fixed Data_type _ _ _ => Z.of_nat (sizeof Data_type)
  | Text string => Z.of_nat (length string) + Z.of_nat (sizeof Size_type)
  end.

Definition total_wire_size (vs : list value) : Z :=
  foldr (fun v total => wire_size v + total) 0 vs.

(** The extracting side can create the string it is about to read. *)
Definition string_obtainable (v : value) : Prop :=
  match v with
  | Text string => string_resize (Z.of_nat (length string)) = None
  | Fixed _ _ _ _ => True
  end.

Definition is_empty_text (v : value) : bool :=
  match v with
  | Text [] => true
  | _ => false
  end.

End Calls.

End Message.

(** ** Net_user/Net_user.h *)

Module Net_user.
Import Cxx.

(** [asio::io_context], as far as [Net_user] observes it: whether it is
    stopped, and the jobs posted to it. *)
Record io_context (Job : Type) : Type := {
  stopped : bool;
  posted : list Job
}.
Arguments stopped {Job} _.
Arguments posted {Job} _.

(** What a [std::thread] handle of [Net_user] runs. *)
Inductive thread_function : Type := asio_thread.

(** [std::thread]: a handle is joinable when it holds a thread. *)
Definition thread : Type := option thread_function.

Definition joinable (handle : thread) : bool :=
  match handle with
  | Some _ => true
  | None => false
  end.

(** [class Net_user]. The header it includes for [Thread_safe_deque],
    [Network_framework/Source/Utility/Thread_safe_deque.h], is not among the
    sources; [m_in_queue] is given the deque of
    [Networking_training/Networking/Utility/Thread_safe_deque.h], whose
    members [empty], [push_back] and [pop_back] are the ones called here. *)
Record Net_user (Owned_message Job : Type) : Type := {
  m_thread_handle : thread;
  m_asio_context : io_context Job;
  m_in_queue : Thread_safe_deque.Thread_safe_deque Owned_message;
  m_asio_thread_stop_flag : bool
}.
Arguments m_thread_handle {Owned_message Job} _.
Arguments m_asio_context {Owned_message Job} _.
Arguments m_in_queue {Owned_message Job} _.
Arguments m_asio_thread_stop_flag {Owned_message Job} _.

Section Members.

Context {Owned_message Job : Type}.

Local Abbreviation Net_user := (Net_user Owned_message Job).

(** The default member initialisers: no thread, a fresh context, an empty
    queue, [m_asio_thread_stop_flag = true]. *)
Definition create : Net_user :=
  {| m_thread_handle := None;
     m_asio_context := {| stopped := false; posted := [] |};
     m_in_queue := Thread_safe_deque.create;
     m_asio_thread_stop_flag := true |}.

Definition restart (context : io_context Job) : io_context Job :=
  {| stopped := false; posted := posted context |}.

Definition stop (context : io_context Job) : io_context Job :=
  {| stopped := true; posted := posted context |}.

Definition is_in_queue_empty (u : Net_user) : bool :=
  Thread_safe_deque.empty (m_in_queue u).

Definition with_in_queue (q : Thread_safe_deque.Thread_safe_deque Owned_message)
    (u : Net_user) : Net_user :=
  {| m_thread_handle := m_thread_handle u;
     m_asio_context := m_asio_context u;
     m_in_queue := q;
     m_asio_thread_stop_flag := m_asio_thread_stop_flag u |}.

(** [in_queue_pop_front()]: [return m_in_queue.pop_back();] *)
Definition in_queue_pop_front (u : Net_user) : option (Owned_message * Net_user) :=
  match Thread_safe_deque.pop_back (m_in_queue u) with
  | None => None
  | Some (message, q) => Some (message, with_in_queue q u)
  end.

(** [in_queue_push_back(message)] *)
Definition in_queue_push_back (message : Owned_message) (u : Net_user) : Net_user :=
  with_in_queue (Thread_safe_deque.push_back message (m_in_queue u)) u.

(** [start_asio_thread()] *)
Definition start_asio_thread (u : Net_user) : outcome unit * Net_user :=
  if negb (joinable (m_thread_handle u))
  then
    let context :=
      if stopped (m_asio_context u)
      then restart (m_asio_context u)
      else m_asio_context u in
    (Returned tt,
     {| m_thread_handle := Some asio_thread;
        m_asio_context := context;
        m_in_queue := m_in_queue u;
        m_asio_thread_stop_flag := false |})
  else (Thrown (runtime_error "asio thread is already running"), u).

(** [stop_asio_thread()]; [join()] returns once the thread has ended and
    leaves the handle not joinable. *)
Definition stop_asio_thread (u : Net_user) : Net_user :=
  if negb (m_asio_thread_stop_flag u)
  then
    {| m_thread_handle :=
         if joinable (m_thread_handle u) then None else m_thread_handle u;
       m_asio_context := stop (m_asio_context u);
       m_in_queue := m_in_queue u;
       m_asio_thread_stop_flag := true |}
  else u.

(** [give_asio_job(job)] *)
Definition give_asio_job (job : Job) (u : Net_user) : outcome unit * Net_user :=
  if negb (m_asio_thread_stop_flag u)
  then
    (Returned tt,
     {| m_thread_handle := m_thread_handle u;
        m_asio_context :=
          {| stopped := stopped (m_asio_context u);
             posted := posted (m_asio_context u) ++ [job] |};
        m_in_queue := m_in_queue u;
        m_asio_thread_stop_flag := m_asio_thread_stop_flag u |})
  else (Thrown (runtime_error "asio thread was not running"), u).

(** Messages arriving one after the other. *)
Definition in_queue_push_back_all (messages : list Owned_message) (u : Net_user) : Net_user :=
  foldl (fun u message => in_queue_push_back message u) u messages.

(** [n] calls of [in_queue_pop_front], collecting what they return. *)
Fixpoint in_queue_pop_front_n (n : nat) (u : Net_user) : option (list Owned_message * Net_user) :=
  match n with
  | O => Some ([], u)
  | S n' =>
      match in_queue_pop_front u with
      | None => None
      | Some (message, u') =>
          match in_queue_pop_front_n n' u' with
          | None => None
          | Some (messages, u'') => Some (message :: messages, u'')
          end
      end
  end.


(** A call made on a [Net_user] by the class derived from it. *)
Inductive call : Type :=
| Start_asio_thread
| Stop_asio_thread
| Give_asio_job (job : Job)
| In_queue_push_back (message : Owned_message).

(** The object after the call, whether the call returned or threw. *)
Definition perform (c : call) (u : Net_user) : Net_user :=
  match c with
  | Start_asio_thread => snd (start_asio_thread u)
  | Stop_asio_thread => stop_asio_thread u
  | Give_asio_job job => snd (give_asio_job job u)
  | In_queue_push_back message => in_queue_push_back message u
  end.

Definition perform_all (calls : list call) (u : Net_user) : Net_user :=
  foldl (fun u c => perform c u) u calls.

(** The thread handle is joinable exactly when the stop flag is clear. *)
Definition thread_matches_flag (u : Net_user) : Prop :=
  joinable (m_thread_handle u) = negb (m_asio_thread_stop_flag u).

End Members.

End Net_user.

(** ** Connection/Client_connection.h *)

Module Client_connection.

(** An asynchronous operation handed to the I/O context. *)
Inductive async_operation : Type := async_read_header.

(** [class Client_connection]: [uint32_t m_id], and of the base class
    [Net_connection] (declared in [Net_connection.h]) whether [m_socket] is
    open and the asynchronous operations issued so far. *)
Record Client_connection : Type := {
  m_socket_is_open : bool;
  m_id : Z;
  issued : list async_operation
}.

(** The constructor: [m_id = 0]; [socket] is moved into the base class. *)
Definition create (socket_is_open : bool) : Client_connection :=
  {| m_socket_is_open := socket_is_open; m_id := 0; issued := [] |}.

(** [connect_to_client(id)] *)
Definition connect_to_client (id : Z) (c : Client_connection) : Client_connection :=
  if m_socket_is_open c
  then
    {| m_socket_is_open := m_socket_is_open c;
       m_id := id;
       issued := issued c ++ [async_read_header] |}
  else c.

(** [get_id()] *)
Definition get_id (c : Client_connection) : Z := m_id c.

(** What happens to a connection: a call of [connect_to_client], or the
    socket being opened or closed underneath it. *)
Inductive event : Type :=
| Connect_to_client (id : Z)
| Socket_opened
| Socket_closed.

Definition step (e : event) (c : Client_connection) : Client_connection :=
  match e with
  | Connect_to_client id => connect_to_client id c
  | Socket_opened =>
      {| m_socket_is_open := true; m_id := m_id c; issued := issued c |}
  | Socket_closed =>
      {| m_socket_is_open := false; m_id := m_id c; issued := issued c |}
  end.

Definition run (events : list event) (c : Client_connection) : Client_connection :=
  foldl (fun c e => step e c) c events.

(** [connect_to_client] was called while the socket was open. *)
Fixpoint connected_while_open (events : list event) (c : Client_connection) : bool :=
  match events with
  | [] => false
  | Connect_to_client id :: events' =>
      m_socket_is_open c || connected_while_open events' (connect_to_client id c)
  | e :: events' => connected_while_open events' (step e c)
  end.

(** The ids of the [connect_to_client] calls that found the socket open,
    in the order of the calls. *)
Fixpoint accepted_ids (events : list event) (c : Client_connection) : list Z :=
  match events with
  | [] => []
  | Connect_to_client id :: events' =>
      (if m_socket_is_open c then [id] else [])
        ++ accepted_ids events' (connect_to_client id c)
  | e :: events' => accepted_ids events' (step e c)
  end.

End Client_connection.

(** ** Network_client/Main.cpp *)

Module Chat_client.

(** [enum class Message_id : uint8_t] *)
Inductive Message_id : Type := set_name | message | server_message.

(** Modelled from the spec: [Internal_id] is declared in a header that is
    not among the sources; it is an "enum{not_internal, ...control
    values}" reserved for the framework. *)
Inductive Internal_id : Type := not_internal | control (value : N).

End Chat_client.

(** *** The outgoing deque between [send_thread] and [main_loop] *)

Module Main_loop.

Section Main_loop.

Context {Net_message : Type}.

(** Where [main_loop] stands between its accesses to the global
    [messages]: before the test [!messages.empty()], or after the test found
    a message and before [messages.pop_front()]. *)
Inductive program_point : Type := At_test | At_pop.

(** [messages], the place of [main_loop], the arguments of the
    [client.send_message] calls so far, and whether [pop_front()] has been
    called on an empty deque (which is undefined). *)
Record state : Type := {
  messages : Thread_safe_deque.Thread_safe_deque Net_message;
  main_at : program_point;
  sent : list Net_message;
  popped_empty : bool
}.

Definition initial : state :=
  {| messages := Thread_safe_deque.create;
     main_at := At_test;
     sent := [];
     popped_empty := false |}.

(** One access to [messages] by one of the two threads: [send_thread]
    executes [messages.push_back(net_message)], or [main_loop] executes its
    next access. [client.handle_received_messages()] and
    [client.is_connected()] do not touch [messages]. *)
Inductive access : Type :=
| Send_thread_push (net_message : Net_message)
| Main_loop_access.

Definition step (a : access) (s : state) : state :=
  match a with
  | Send_thread_push net_message =>
      {| messages := Thread_safe_deque.push_back net_message (messages s);
         main_at := main_at s;
         sent := sent s;
         popped_empty := popped_empty s |}
  | Main_loop_access =>
      match main_at s with
      | At_test =>
          if negb (Thread_safe_deque.empty (messages s))
          then
            {| messages := messages s;
               main_at := At_pop;
               sent := sent s;
               popped_empty := popped_empty s |}
          else s
      | At_pop =>
          match Thread_safe_deque.pop_front (messages s) with
          | Some (net_message, rest) =>
              {| messages := rest;
                 main_at := At_test;
                 sent := sent s ++ [net_message];
                 popped_empty := popped_empty s |}
          | None =>
              {| messages := messages s;
                 main_at := At_test;
                 sent := sent s;
                 popped_empty := true |}
          end
      end
  end.

(** The accesses of the two threads in the order they take the mutex. *)
Definition run (accesses : list access) (s : state) : state :=
  foldl (fun s a => step a s) s accesses.

(** The messages [send_thread] has pushed, in the order of the pushes. *)
Definition pushed (accesses : list access) : list Net_message :=
  omap (fun a =>
          match a with
          | Send_thread_push net_message => Some net_message
          | Main_loop_access => None
          end) accesses.

(** What holds between the accesses: no [pop_front()] on an empty deque so
    far, a message waiting whenever [main_loop] is about to pop, and the
    pushed messages being the sent ones followed by the queued ones. *)
Definition consistent (pushed_so_far : list Net_message) (s : state) : Prop :=
  popped_empty s = false
  /\ (main_at s = At_pop -> messages s <> [])
  /\ sent s ++ messages s = pushed_so_far.

End Main_loop.

End Main_loop.

(** * Properties *)

(** ** Thread_safe_deque *)

Module Thread_safe_deque_facts.
Import Thread_safe_deque.

Section Facts.

Context {T : Type}.
Implicit Types (q : Thread_safe_deque T) (items : list T).

Lemma push_back_all_app items q : push_back_all items q = q ++ items.
Proof.
  revert q. induction items as [|item items IH]; intros q; simpl.
  - by rewrite app_nil_r.
  - rewrite IH. unfold push_back. by rewrite <- app_assoc.
Qed.

Lemma pop_front_n_app items q :
  pop_front_n (length items) (items ++ q) = Some (items, q).
Proof.
  induction items as [|item items IH]; simpl; [done|].
  by rewrite IH.
Qed.

Lemma pop_back_push_back item q :
  pop_back (push_back item q) = Some (item, q).
Proof.
  unfold pop_back, push_back.
  by rewrite last_snoc, removelast_last.
Qed.

(** Pushing at the back of any queue and popping everything from the front
    returns what was queued before, then the pushed items in their order. *)
Lemma push_back_pop_front_all items q :
  pop_front_n (length q + length items) (push_back_all items q)
  = Some (q ++ items, create).
Proof.
  rewrite push_back_all_app.
  rewrite <- length_app.
  rewrite <- (app_nil_r (q ++ items)) at 2.
  apply pop_front_n_app.
Qed.

(** C7: [n] calls of [push_back] with [x1 .. xn] on a new deque, then [n]
    calls of [pop_front], return [x1 .. xn] in that order (and leave the
    deque empty). *)
Theorem push_back_pop_front_fifo items :
  pop_front_n (length items) (push_back_all items create)
  = Some (items, create).
Proof.
  apply (push_back_pop_front_all items create).
Qed.

(** *** Both ends *)

Lemma push_front_all_app items q : push_front_all items q = rev items ++ q.
Proof.
  revert q. induction items as [|item items IH]; intros q; simpl; [done|].
  rewrite IH. unfold push_front. by rewrite <- app_assoc.
Qed.

Lemma pop_back_n_app items q :
  pop_back_n (length items) (q ++ rev items) = Some (items, q).
Proof.
  revert q. induction items as [|item items IH]; intros q; simpl.
  - by rewrite app_nil_r.
  - rewrite app_assoc.
    change (pop_back ((q ++ rev items) ++ [item]))
      with (pop_back (push_back item (q ++ rev items))).
    rewrite pop_back_push_back. by rewrite IH.
Qed.

Lemma pop_back_inv q temp q' : pop_back q = Some (temp, q') -> q = q' ++ [temp].
Proof.
  unfold pop_back. destruct (last q) as [x|] eqn:Hlast; [|done].
  intros [= <- <-]. apply last_Some in Hlast as [l ->].
  by rewrite removelast_last.
Qed.

(** X1: while the deque holds at least [n] items, [n] calls of [pop_front]
    return its [n] front items in queue order and leave the others, in
    their order. *)
Theorem pop_front_n_take_drop n q :
  (n <= length q)%nat -> pop_front_n n q = Some (take n q, drop n q).
Proof.
  revert q. induction n as [|n IH]; intros q Hn; [done|].
  destruct q as [|temp q]; simpl in *; [lia|].
  rewrite IH by lia. done.
Qed.

(** X2: used from the back only, the deque is a stack: after [push_back]
    of [x1 .. xn], [n] calls of [pop_back] return [xn .. x1] and leave what
    was queued before untouched. *)
Theorem push_back_pop_back_lifo items q :
  pop_back_n (length items) (push_back_all items q) = Some (rev items, q).
Proof.
  rewrite push_back_all_app.
  rewrite <- (rev_involutive items) at 2.
  rewrite <- length_rev. apply pop_back_n_app.
Qed.

(** X3: the deque is a queue in the other direction too: [push_front] of
    [x1 .. xn] on a new deque followed by [n] calls of [pop_back] returns
    [x1 .. xn] in that order. *)
Theorem push_front_pop_back_fifo items :
  pop_back_n (length items) (push_front_all items create) = Some (items, create).
Proof.
  rewrite push_front_all_app, app_nil_r.
  apply (pop_back_n_app items []).
Qed.

(** X4: putting a popped item back at the end it came from restores the
    deque: [push_front] after [pop_front], and [push_back] after
    [pop_back]. *)
Theorem pop_then_push_restores q temp q' :
  (pop_front q = Some (temp, q') -> push_front temp q' = q)
  /\ (pop_back q = Some (temp, q') -> push_back temp q' = q).
Proof.
  split.
  - destruct q as [|x q]; [done|]. by intros [= <- <-].
  - intros Hpop. apply pop_back_inv in Hpop. by subst.
Qed.

End Facts.

Lemma pop_front_n_take_drop_witness :
  pop_front_n 2 [1; 2; 3]%nat = Some ([1; 2]%nat, [3]%nat).
Proof. apply (pop_front_n_take_drop 2 [1; 2; 3]%nat). simpl. lia. Defined.

Lemma pop_then_push_restores_witness :
  push_front 1%nat [2; 3]%nat = [1; 2; 3]%nat
  /\ push_back 3%nat [1; 2]%nat = [1; 2; 3]%nat.
Proof.
  split.
  - apply (pop_then_push_restores [1; 2; 3]%nat 1%nat [2; 3]%nat). reflexivity.
  - apply (pop_then_push_restores [1; 2; 3]%nat 3%nat [1; 2]%nat). reflexivity.
Defined.

End Thread_safe_deque_facts.

(** ** Net_user *)

Module Net_user_facts.
Import Cxx Net_user.

Section Facts.

Context {Owned_message Job : Type}.
Implicit Types (u : Net_user Owned_message Job) (message : Owned_message).

Lemma m_in_queue_push_back_all (messages : list Owned_message) u :
  m_in_queue (in_queue_push_back_all messages u) = m_in_queue u ++ messages.
Proof.
  revert u. induction messages as [|message messages IH]; intros u; simpl.
  - by rewrite app_nil_r.
  - rewrite IH. simpl. unfold Thread_safe_deque.push_back.
    by rewrite <- app_assoc.
Qed.

Lemma with_in_queue_m_in_queue u : with_in_queue (m_in_queue u) u = u.
Proof. by destruct u. Qed.

Lemma in_queue_pop_front_push_back message u :
  in_queue_pop_front (in_queue_push_back message u) = Some (message, u).
Proof.
  unfold in_queue_pop_front, in_queue_push_back. simpl.
  rewrite Thread_safe_deque_facts.pop_back_push_back.
  by destruct u.
Qed.

(** C1, what the code does: [in_queue_pop_front] calls [pop_back], so after
    messages have arrived through [in_queue_push_back] it returns the one
    that arrived last and leaves the earlier ones queued. *)
Theorem in_queue_pop_front_returns_newest (messages : list Owned_message) message u :
  in_queue_pop_front (in_queue_push_back_all (messages ++ [message]) u)
  = Some (message, in_queue_push_back_all messages u).
Proof.
  unfold in_queue_push_back_all. rewrite foldl_app. simpl.
  apply in_queue_pop_front_push_back.
Qed.

(** C8: [start_asio_thread] throws exactly when the thread handle is
    joinable, and then changes nothing; otherwise it returns, the context is
    restarted if it was stopped and untouched if not, the stop flag is
    cleared, and the handle holds a new thread running [asio_thread]. *)
Theorem start_asio_thread_spec u :
  ((exists e, fst (start_asio_thread u) = Thrown e)
     <-> joinable (m_thread_handle u) = true)
  /\ (joinable (m_thread_handle u) = true ->
      start_asio_thread u
      = (Thrown (runtime_error "asio thread is already running"), u))
  /\ (joinable (m_thread_handle u) = false ->
      fst (start_asio_thread u) = Returned tt
      /\ m_asio_context (snd (start_asio_thread u))
         = (if stopped (m_asio_context u)
            then restart (m_asio_context u)
            else m_asio_context u)
      /\ stopped (m_asio_context (snd (start_asio_thread u))) = false
      /\ m_asio_thread_stop_flag (snd (start_asio_thread u)) = false
      /\ m_thread_handle (snd (start_asio_thread u)) = Some asio_thread
      /\ m_in_queue (snd (start_asio_thread u)) = m_in_queue u).
Proof.
  unfold start_asio_thread.
  destruct (joinable (m_thread_handle u)) eqn:Hjoinable; simpl.
  - split; [|split]; [split | done | done]; eauto.
  - split; [|split]; [split | done |].
    + by intros [e He].
    + done.
    + intros _. repeat split; try done.
      by destruct (stopped (m_asio_context u)) eqn:Hstopped.
Qed.

(** *** The inbound queue as a whole *)

Lemma in_queue_push_back_all_eq (messages : list Owned_message) u :
  in_queue_push_back_all messages u = with_in_queue (m_in_queue u ++ messages) u.
Proof.
  revert u. induction messages as [|message messages IH]; intros u; simpl.
  - rewrite app_nil_r. by destruct u.
  - rewrite IH. unfold in_queue_push_back, with_in_queue, Thread_safe_deque.push_back.
    simpl. by rewrite <- app_assoc.
Qed.

Lemma in_queue_pop_front_n_app (messages : list Owned_message) q u :
  in_queue_pop_front_n (length messages) (with_in_queue (q ++ rev messages) u)
  = Some (messages, with_in_queue q u).
Proof.
  revert q. induction messages as [|message messages IH]; intros q; simpl.
  - by rewrite app_nil_r.
  - rewrite app_assoc. unfold in_queue_pop_front. simpl.
    change ((q ++ rev messages) ++ [message])
      with (Thread_safe_deque.push_back message (q ++ rev messages)).
    rewrite Thread_safe_deque_facts.pop_back_push_back.
    change (with_in_queue (q ++ rev messages)
              (with_in_queue
                 (Thread_safe_deque.push_back message (q ++ rev messages)) u))
      with (with_in_queue (q ++ rev messages) u).
    by rewrite IH.
Qed.

(** X9: after messages [m1 .. mn] have arrived through
    [in_queue_push_back], [n] calls of [in_queue_pop_front] return
    [mn .. m1], the newest first, and leave the [Net_user] as it was before
    the arrivals. *)
Theorem in_queue_drains_newest_first (messages : list Owned_message) u :
  in_queue_pop_front_n (length messages) (in_queue_push_back_all messages u)
  = Some (rev messages, u).
Proof.
  rewrite in_queue_push_back_all_eq.
  rewrite <- (rev_involutive messages) at 2.
  rewrite <- length_rev, in_queue_pop_front_n_app.
  by rewrite with_in_queue_m_in_queue.
Qed.

(** *** The life cycle of the I/O thread *)

Lemma perform_thread_matches_flag (c : call) u :
  thread_matches_flag u -> thread_matches_flag (perform c u).
Proof.
  unfold thread_matches_flag.
  destruct c as [| |job|message]; simpl; intros Hu.
  - unfold start_asio_thread.
    destruct (joinable (m_thread_handle u)) eqn:Hjoinable; simpl; [|done].
    by rewrite Hjoinable.
  - unfold stop_asio_thread.
    destruct (m_asio_thread_stop_flag u) eqn:Hflag; simpl; [by rewrite ?Hflag|].
    by destruct (joinable (m_thread_handle u)).
  - unfold give_asio_job.
    by destruct (m_asio_thread_stop_flag u) eqn:Hflag; simpl; rewrite ?Hflag.
  - done.
Qed.

Lemma perform_all_thread_matches_flag (calls : list call) u :
  thread_matches_flag u -> thread_matches_flag (perform_all calls u).
Proof.
  revert u. induction calls as [|c calls IH]; intros u Hu; [done|].
  simpl. apply IH. by apply perform_thread_matches_flag.
Qed.

(** X5: whatever calls of [start_asio_thread], [stop_asio_thread],
    [give_asio_job] and [in_queue_push_back] have been made on a new
    [Net_user], returning or throwing, the thread handle is joinable exactly
    when the stop flag is clear. *)
Theorem thread_joinable_iff_not_stopped (calls : list call) :
  joinable (m_thread_handle (perform_all calls (@create Owned_message Job)))
  = negb (m_asio_thread_stop_flag (perform_all calls (@create Owned_message Job))).
Proof. by apply perform_all_thread_matches_flag. Qed.

(** X6: after any such calls, [stop_asio_thread] followed by
    [start_asio_thread] does not throw, and leaves a joinable thread, a
    context that is not stopped and a clear stop flag. *)
Theorem restart_after_stop (calls : list call) :
  fst (start_asio_thread
         (stop_asio_thread (perform_all calls (@create Owned_message Job))))
  = Returned tt
  /\ m_thread_handle
       (snd (start_asio_thread
               (stop_asio_thread (perform_all calls (@create Owned_message Job)))))
     = Some asio_thread
  /\ stopped
       (m_asio_context
          (snd (start_asio_thread
                  (stop_asio_thread (perform_all calls (@create Owned_message Job))))))
     = false
  /\ m_asio_thread_stop_flag
       (snd (start_asio_thread
               (stop_asio_thread (perform_all calls (@create Owned_message Job)))))
     = false.
Proof.
  pose proof (perform_all_thread_matches_flag calls create eq_refl) as Hu.
  set (u := perform_all calls create) in *. clearbody u.
  unfold thread_matches_flag in Hu.
  destruct (m_asio_thread_stop_flag u) eqn:Hflag; simpl in Hu.
  - assert (stop_asio_thread u = u) as ->
      by (unfold stop_asio_thread; by rewrite Hflag).
    unfold start_asio_thread. rewrite Hu. simpl. repeat split.
    destruct (stopped (m_asio_context u)) eqn:Hstopped;
      first [reflexivity | assumption].
  - unfold stop_asio_thread. rewrite Hflag, Hu. simpl.
    unfold start_asio_thread. simpl. done.
Qed.

(** X7: [stop_asio_thread] is idempotent, leaves the inbound queue alone,
    and after it [give_asio_job] throws "asio thread was not running"
    without posting the job. *)
Theorem stop_asio_thread_idempotent (job : Job) u :
  stop_asio_thread (stop_asio_thread u) = stop_asio_thread u
  /\ m_in_queue (stop_asio_thread u) = m_in_queue u
  /\ give_asio_job job (stop_asio_thread u)
     = (Thrown (runtime_error "asio thread was not running"), stop_asio_thread u).
Proof.
  unfold stop_asio_thread, give_asio_job.
  destruct (m_asio_thread_stop_flag u) eqn:Hflag; simpl; by rewrite ?Hflag.
Qed.




End Facts.


(** A new [Net_user] starts its thread; a second start throws. *)
Lemma start_asio_thread_spec_witness :
  m_thread_handle (snd (start_asio_thread (@create unit unit))) = Some asio_thread
  /\ start_asio_thread (snd (start_asio_thread (@create unit unit)))
     = (Thrown (runtime_error "asio thread is already running"),
        snd (start_asio_thread (@create unit unit))).
Proof.
  split.
  - apply (start_asio_thread_spec (@create unit unit)). reflexivity.
  - apply (start_asio_thread_spec (snd (start_asio_thread (@create unit unit)))).
    reflexivity.
Defined.

End Net_user_facts.

(** ** Client_connection *)

Module Client_connection_facts.
Import Client_connection.

Lemma run_not_connected_while_open events c :
  connected_while_open events c = false ->
  m_id (run events c) = m_id c /\ issued (run events c) = issued c.
Proof.
  revert c. induction events as [|e events IH]; intros c Hnever; [done|].
  destruct e as [id| |]; simpl in *.
  - apply orb_false_elim in Hnever as [Hclosed Hnever].
    destruct (IH _ Hnever) as [Hid Hissued].
    rewrite Hid, Hissued. unfold connect_to_client. by rewrite Hclosed.
  - by destruct (IH _ Hnever).
  - by destruct (IH _ Hnever).
Qed.

(** C10: a new connection has id 0, and keeps it with no read issued as long
    as [connect_to_client] has not been called with the socket open;
    [connect_to_client id] on an open socket assigns [id] and issues one
    header read; on a closed socket it changes nothing. *)
Theorem connect_to_client_spec :
  (forall socket_is_open, get_id (create socket_is_open) = 0)
  /\ (forall events socket_is_open,
        connected_while_open events (create socket_is_open) = false ->
        get_id (run events (create socket_is_open)) = 0
        /\ issued (run events (create socket_is_open)) = [])
  /\ (forall id c,
        m_socket_is_open c = true ->
        get_id (connect_to_client id c) = id
        /\ issued (connect_to_client id c) = issued c ++ [async_read_header])
  /\ (forall id c,
        m_socket_is_open c = false -> connect_to_client id c = c).
Proof.
  split; [done|]. split; [|split].
  - intros events socket_is_open Hnever.
    by apply run_not_connected_while_open in Hnever.
  - intros id c Hopen. unfold connect_to_client. by rewrite Hopen.
  - intros id c Hclosed. unfold connect_to_client. by rewrite Hclosed.
Qed.

(** X10: whatever happens to a connection, it has issued one more header
    read for every [connect_to_client] call that found the socket open (a
    repeated call issues a further read), none for the calls that found it
    closed, and [get_id] returns the id of the last call that found it open,
    or the id it had if there was none. *)
Theorem reads_and_id_follow_open_calls events c :
  issued (run events c)
  = issued c ++ replicate (length (accepted_ids events c)) async_read_header
  /\ get_id (run events c) = default (m_id c) (last (accepted_ids events c)).
Proof.
  revert c. induction events as [|e events IH]; intros c.
  { simpl. by rewrite app_nil_r. }
  destruct e as [id| |].
  - cbn [accepted_ids]. change (run (Connect_to_client id :: events) c)
      with (run events (connect_to_client id c)).
    destruct (IH (connect_to_client id c)) as [Hissued Hid].
    rewrite Hissued, Hid.
    destruct (m_socket_is_open c) eqn:Hopen.
    + assert (m_id (connect_to_client id c) = id
              /\ issued (connect_to_client id c) = issued c ++ [async_read_header])
        as [-> ->] by (unfold connect_to_client; by rewrite Hopen).
      simpl. rewrite <- app_assoc. split; [done|].
      rewrite last_cons. destruct (last _); reflexivity.
    + assert (connect_to_client id c = c) as ->
        by (unfold connect_to_client; by rewrite Hopen).
      done.
  - apply (IH (step Socket_opened c)).
  - apply (IH (step Socket_closed c)).
Qed.

(** A call on a closed socket, the socket opening, a call with id 7. *)
Lemma connect_to_client_spec_witness :
  get_id (run [Connect_to_client 5; Socket_closed] (create false)) = 0
  /\ get_id (connect_to_client 7 (run [Connect_to_client 5; Socket_opened] (create false)))
     = 7.
Proof.
  split.
  - apply connect_to_client_spec. reflexivity.
  - apply connect_to_client_spec. reflexivity.
Defined.

End Client_connection_facts.

(** ** The outgoing deque of the chat client *)

Module Main_loop_facts.
Import Main_loop.

Section Facts.

Context {Net_message : Type}.
Implicit Types (s : @state Net_message) (a : @access Net_message).

Lemma step_consistent pushed_so_far a s :
  consistent pushed_so_far s ->
  consistent (pushed_so_far ++ pushed [a]) (step a s).
Proof.
  intros (Hpopped & Hwaiting & Hpushed). unfold consistent.
  destruct a as [net_message|]; simpl.
  - split; [done|]. split.
    + intros _. unfold Thread_safe_deque.push_back. by destruct (messages s).
    + unfold Thread_safe_deque.push_back. by rewrite app_assoc, Hpushed.
  - rewrite app_nil_r. destruct (main_at s) eqn:Hat.
    + destruct (messages s) as [|net_message rest] eqn:Hmessages; simpl.
      * rewrite ?Hat, ?Hmessages. done.
      * rewrite ?Hmessages. done.
    + destruct (messages s) as [|net_message rest] eqn:Hmessages; simpl.
      * by destruct Hwaiting.
      * rewrite <- app_assoc. done.
Qed.

Lemma run_consistent accesses :
  consistent (pushed accesses) (run accesses (@initial Net_message)).
Proof.
  induction accesses as [|a accesses IH] using rev_ind.
  - by split.
  - unfold run. rewrite foldl_app. simpl.
    unfold pushed. rewrite omap_app. by apply step_consistent.
Qed.

(** X19: however the pushes of [send_thread] and the accesses of
    [main_loop] to [messages] interleave, [main_loop] never calls
    [pop_front()] on an empty deque, and the messages it has handed to
    [send_message], followed by the ones still queued, are the messages
    pushed, each once and in the order they were pushed. *)
Theorem main_loop_sends_in_order accesses :
  popped_empty (run accesses (@initial Net_message)) = false
  /\ sent (run accesses (@initial Net_message))
       ++ messages (run accesses (@initial Net_message))
     = pushed accesses.
Proof.
  destruct (run_consistent accesses) as (Hpopped & _ & Hpushed). done.
Qed.

End Facts.

End Main_loop_facts.

(** ** Message *)

Module Message_facts.
Import Cxx Message.

Lemma numeric_limits_max_range (t : unsigned_integral) :
  0 <= numeric_limits_max t < 2 ^ size_t_bits.
Proof. destruct t; vm_compute; split; congruence. Qed.

Lemma static_cast_in_range (t : unsigned_integral) (value : Z) :
  0 <= value <= numeric_limits_max t -> static_cast t value = value.
Proof.
  unfold static_cast, numeric_limits_max. intros Hrange.
  apply Z.mod_small. lia.
Qed.

Lemma static_cast_fixed_point (t : unsigned_integral) (value : Z) :
  static_cast t value = value -> 0 <= value <= numeric_limits_max t.
Proof.
  unfold static_cast, numeric_limits_max. intros Hcast.
  assert (0 < 2 ^ bit_width t) by (destruct t; reflexivity).
  pose proof (Z.mod_pos_bound value (2 ^ bit_width t)). lia.
Qed.

Lemma size_t_wrap_small (z : Z) : 0 <= z < 2 ^ size_t_bits -> size_t_wrap z = z.
Proof. apply Z.mod_small. Qed.

Lemma uint64_layout_ok : Standard_layout_ok uint64_layout.
Proof.
  split.
  - simpl. lia.
  - intros v. apply length_le_split.
  - intros v. simpl.
    rewrite le_combine_split. change (Z.of_nat 8 * 8) with 64.
    rewrite <- (word.of_Z_unsigned v) at 2.
    f_equal. apply Z.mod_small. apply (word.unsigned_range v).
Qed.

Lemma char_layout_ok : Standard_layout_ok char_layout.
Proof. split; [simpl; lia | done | done]. Qed.

#[export] Existing Instance uint64_layout_ok.
#[export] Existing Instance char_layout_ok.

Section Facts.

Context {Id_type Internal_id : Type}.
Context `{String_implementation}.
Variable Header_size_type : unsigned_integral.

Local Abbreviation Message := (Message Id_type Internal_id).
Local Abbreviation header_max := (numeric_limits_max Header_size_type).
Local Abbreviation body_length m := (Z.of_nat (length (m_body m))).
Local Abbreviation keeps_ids := (@keeps_ids Id_type Internal_id).
Local Abbreviation keeps_sized := (@keeps_sized Id_type Internal_id Header_size_type).

Implicit Types (m : Message) (buffer string : list byte).

Ltac unfold_method :=
  unfold push_back_string, push_back_string_view, push_back, extract_string,
    extract, push_back_buffer, extract_to_buffer, clear, resize_body, body_at,
    memcpy_to_body, memcpy_from_body, checked_cast, body_size, get_body,
    set_body, set_m_size, bind, ret, throw; simpl.

Lemma with_contents_same m : with_contents (m_size (m_header m)) (m_body m) m = m.
Proof. by destruct m as [[? ? ?] ?]. Qed.

(** *** [push_back_buffer] *)

Lemma push_back_buffer_overflow buffer m :
  body_length m + Z.of_nat (length buffer) < 2 ^ size_t_bits ->
  header_max < body_length m + Z.of_nat (length buffer) ->
  push_back_buffer Header_size_type buffer m
  = (Thrown (length_error "Storing too much data to message"), m).
Proof.
  intros Hspace Hover. unfold_method.
  rewrite size_t_wrap_small by lia.
  destruct (Z.gtb_spec (body_length m + Z.of_nat (length buffer)) header_max); [done|lia].
Qed.

Lemma push_back_buffer_empty m :
  body_length m <= header_max ->
  push_back_buffer Header_size_type [] m = (Thrown out_of_range, m).
Proof.
  intros Hfits. pose proof (numeric_limits_max_range Header_size_type).
  unfold_method. rewrite Z.add_0_r.
  rewrite size_t_wrap_small by lia.
  destruct (Z.gtb_spec (body_length m) header_max); [lia|].
  rewrite Nat2Z.id, resize_all.
  destruct (Z.geb_spec (body_length m) (body_length m)); [|lia].
  by destruct m.
Qed.

Lemma list_inserts_at_end {A} (l k : list A) (x : A) :
  list_inserts (length l) k (l ++ replicate (length k) x) = l ++ k.
Proof.
  rewrite <- (Nat.add_0_r (length l)), list_inserts_app_r.
  rewrite <- (app_nil_r (replicate _ _)).
  rewrite list_inserts_0_r by (by rewrite length_replicate).
  by rewrite app_nil_r.
Qed.

Lemma push_back_buffer_returns buffer m :
  buffer <> [] ->
  body_length m + Z.of_nat (length buffer) <= header_max ->
  push_back_buffer Header_size_type buffer m
  = (Returned tt,
     with_contents (body_length m + Z.of_nat (length buffer)) (m_body m ++ buffer) m).
Proof.
  intros Hnonempty Hfits. pose proof (numeric_limits_max_range Header_size_type).
  assert (0 < length buffer)%nat by (destruct buffer; [done | simpl; lia]).
  unfold_method.
  rewrite size_t_wrap_small by lia.
  destruct (Z.gtb_spec (body_length m + Z.of_nat (length buffer)) header_max); [lia|].
  rewrite <- Nat2Z.inj_add, Nat2Z.id.
  rewrite resize_add_eq by done.
  rewrite length_app, length_replicate.
  destruct (Z.geb_spec (body_length m) (Z.of_nat (length (m_body m) + length buffer))); [lia|].
  simpl. rewrite Nat2Z.id, list_inserts_at_end, length_app.
  rewrite static_cast_in_range by lia.
  rewrite Z.eqb_refl. simpl.
  unfold with_contents. by rewrite Nat2Z.inj_add.
Qed.

(** *** [extract_to_buffer] *)

Lemma extract_to_buffer_underflow buffer_size m :
  body_length m < buffer_size ->
  extract_to_buffer Header_size_type buffer_size m
  = (Thrown (length_error "Not enough data to extract"), m).
Proof.
  intros Hunder. unfold_method.
  destruct (Z.gtb_spec buffer_size (body_length m)); [done|lia].
Qed.

Lemma extract_to_buffer_zero m :
  body_length m <= header_max ->
  extract_to_buffer Header_size_type 0 m = (Thrown out_of_range, m).
Proof.
  intros Hfits. pose proof (numeric_limits_max_range Header_size_type).
  unfold_method.
  destruct (Z.gtb_spec 0 (body_length m)); [lia|].
  rewrite Z.sub_0_r, size_t_wrap_small by lia.
  destruct (Z.geb_spec (body_length m) (body_length m)); [done|lia].
Qed.

Lemma extract_to_buffer_returns buffer_size m :
  0 < buffer_size <= body_length m ->
  body_length m <= header_max ->
  extract_to_buffer Header_size_type buffer_size m
  = (Returned (drop (Z.to_nat (body_length m - buffer_size)) (m_body m)),
     with_contents (body_length m - buffer_size)
       (take (Z.to_nat (body_length m - buffer_size)) (m_body m)) m).
Proof.
  intros Hsize Hfits. pose proof (numeric_limits_max_range Header_size_type).
  unfold_method.
  destruct (Z.gtb_spec buffer_size (body_length m)); [lia|].
  rewrite size_t_wrap_small by lia.
  destruct (Z.geb_spec (body_length m - buffer_size) (body_length m)); [lia|].
  rewrite resize_le by lia.
  rewrite length_take, Nat.min_l by lia.
  rewrite Z2Nat.id by lia.
  rewrite static_cast_in_range by lia.
  rewrite Z.eqb_refl. simpl.
  rewrite take_ge; [done|].
  rewrite length_drop. lia.
Qed.

Lemma extract_to_buffer_appended body buffer m :
  m_body m = body ++ buffer ->
  buffer <> [] ->
  body_length m <= header_max ->
  extract_to_buffer Header_size_type (Z.of_nat (length buffer)) m
  = (Returned buffer, with_contents (Z.of_nat (length body)) body m).
Proof.
  intros Hbody Hnonempty Hfits.
  assert (0 < length buffer)%nat by (destruct buffer; [done | simpl; lia]).
  assert (body_length m - Z.of_nat (length buffer) = Z.of_nat (length body)) as Hrest.
  { rewrite Hbody, length_app. lia. }
  rewrite extract_to_buffer_returns by (rewrite ?Hbody, ?length_app; lia).
  rewrite Hrest, Nat2Z.id, Hbody.
  by rewrite drop_app_length, take_app_length.
Qed.

(** *** [push_back] and [extract] of standard-layout data *)

Section Fixed.

Context {Data_type : Type} {layout : Standard_layout Data_type}.
Context {layout_ok : Standard_layout_ok layout}.

Lemma object_bytes_nonempty (data : Data_type) : object_bytes data <> [].
Proof.
  intros Hempty. pose proof (object_bytes_length data) as Hlength.
  pose proof sizeof_positive. rewrite Hempty in Hlength. simpl in Hlength. lia.
Qed.

Lemma push_back_returns (data : Data_type) m :
  body_length m + Z.of_nat (sizeof Data_type) <= header_max ->
  push_back Header_size_type data m
  = (Returned tt,
     with_contents (body_length m + Z.of_nat (sizeof Data_type))
       (m_body m ++ object_bytes data) m).
Proof.
  intros Hfits. unfold push_back.
  rewrite push_back_buffer_returns.
  - by rewrite object_bytes_length.
  - apply object_bytes_nonempty.
  - by rewrite object_bytes_length.
Qed.

Lemma push_back_overflow (data : Data_type) m :
  body_length m + Z.of_nat (sizeof Data_type) < 2 ^ size_t_bits ->
  header_max < body_length m + Z.of_nat (sizeof Data_type) ->
  push_back Header_size_type data m
  = (Thrown (length_error "Storing too much data to message"), m).
Proof.
  intros Hspace Hover. unfold push_back.
  apply push_back_buffer_overflow; by rewrite object_bytes_length.
Qed.

Lemma extract_returns body (data : Data_type) m :
  m_body m = body ++ object_bytes data ->
  body_length m <= header_max ->
  extract Header_size_type Data_type m
  = (Returned data, with_contents (Z.of_nat (length body)) body m).
Proof.
  intros Hbody Hfits. unfold extract, bind.
  rewrite <- (object_bytes_length data).
  rewrite (extract_to_buffer_appended body (object_bytes data));
    [|done|apply object_bytes_nonempty|done].
  unfold ret. by rewrite from_object_bytes.
Qed.

End Fixed.

Lemma extract_underflow (Data_type : Type) (layout : Standard_layout Data_type) m :
  body_length m < Z.of_nat (sizeof Data_type) ->
  extract Header_size_type Data_type m
  = (Thrown (length_error "Not enough data to extract"), m).
Proof.
  intros Hunder. unfold extract, bind.
  by rewrite extract_to_buffer_underflow.
Qed.

(** *** Strings *)

Lemma unsigned_size_of_Z (n : Z) :
  0 <= n < 2 ^ size_t_bits -> word.unsigned (word.of_Z n : Size_type) = n.
Proof.
  intros Hrange. rewrite word.unsigned_of_Z. unfold word.wrap.
  by apply Z.mod_small.
Qed.

Lemma push_back_string_returns string m :
  string <> [] ->
  body_length m + Z.of_nat (length string) + Z.of_nat (sizeof Size_type) <= header_max ->
  push_back_string Header_size_type string m
  = (Returned tt,
     with_contents
       (body_length m + Z.of_nat (length string) + Z.of_nat (sizeof Size_type))
       (m_body m ++ wire_bytes (Text string)) m).
Proof.
  intros Hnonempty Hfits.
  unfold push_back_string, push_back_string_view, bind.
  rewrite push_back_buffer_returns by (done || lia).
  rewrite push_back_returns
    by (cbn [m_body with_contents]; rewrite length_app; lia).
  cbn [m_body m_header m_id m_internal_id with_contents wire_bytes].
  rewrite length_app, <- app_assoc. unfold with_contents.
  do 3 f_equal. lia.
Qed.

Lemma push_back_string_bytes_overflow string m :
  body_length m + Z.of_nat (length string) < 2 ^ size_t_bits ->
  header_max < body_length m + Z.of_nat (length string) ->
  push_back_string Header_size_type string m
  = (Thrown (length_error "Storing too much data to message"), m).
Proof.
  intros Hspace Hover.
  unfold push_back_string, push_back_string_view, bind.
  by rewrite push_back_buffer_overflow.
Qed.

Lemma push_back_string_length_overflow string m :
  string <> [] ->
  body_length m + Z.of_nat (length string) + Z.of_nat (sizeof Size_type) < 2 ^ size_t_bits ->
  body_length m + Z.of_nat (length string) <= header_max ->
  header_max < body_length m + Z.of_nat (length string) + Z.of_nat (sizeof Size_type) ->
  push_back_string Header_size_type string m
  = (Thrown (length_error "Storing too much data to message"),
     with_contents (body_length m + Z.of_nat (length string)) (m_body m ++ string) m).
Proof.
  intros Hnonempty Hspace Hfits Hover.
  unfold push_back_string, push_back_string_view, bind.
  rewrite push_back_buffer_returns by done.
  rewrite push_back_overflow; [done| |];
    cbn [m_body with_contents]; rewrite length_app; lia.
Qed.

Lemma push_back_string_empty m :
  body_length m <= header_max ->
  push_back_string Header_size_type [] m = (Thrown out_of_range, m).
Proof.
  intros Hfits.
  unfold push_back_string, push_back_string_view, bind.
  by rewrite push_back_buffer_empty.
Qed.

Lemma output_resize_returns n m :
  string_resize n = None -> output_resize n m = (Returned tt, m).
Proof. unfold output_resize. by intros ->. Qed.

Lemma output_resize_throws n e m :
  string_resize n = Some e -> output_resize n m = (Thrown e, m).
Proof. unfold output_resize. by intros ->. Qed.

Lemma extract_string_returns body string m :
  m_body m = body ++ wire_bytes (Text string) ->
  string <> [] ->
  string_resize (Z.of_nat (length string)) = None ->
  body_length m <= header_max ->
  extract_string Header_size_type m
  = (Returned string, with_contents (Z.of_nat (length body)) body m).
Proof.
  intros Hbody Hnonempty Hresize Hfits.
  pose proof (numeric_limits_max_range Header_size_type).
  assert (Z.of_nat (length string) < 2 ^ size_t_bits).
  { rewrite Hbody in Hfits. simpl in Hfits. rewrite !length_app in Hfits. lia. }
  unfold extract_string, bind.
  rewrite (extract_returns (body ++ string)
             (word.of_Z (Z.of_nat (length string)) : Size_type))
    by (done || (rewrite Hbody; simpl; by rewrite app_assoc)).
  rewrite unsigned_size_of_Z by lia.
  rewrite output_resize_returns by done.
  rewrite (extract_to_buffer_appended body string); [done|done|done|].
  simpl. rewrite Hbody in Hfits. simpl in Hfits. rewrite !length_app in *. lia.
Qed.

Lemma extract_string_no_length m :
  body_length m < Z.of_nat (sizeof Size_type) ->
  extract_string Header_size_type m
  = (Thrown (length_error "Not enough data to extract"), m).
Proof.
  intros Hunder. unfold extract_string, bind.
  by rewrite extract_underflow.
Qed.

Lemma extract_string_short_payload m :
  Z.of_nat (sizeof Size_type) <= body_length m <= header_max ->
  body_length m - Z.of_nat (sizeof Size_type) < stored_length m ->
  extract_string Header_size_type m
  = (Thrown (short_payload_exception (stored_length m)),
     with_contents (body_length m - Z.of_nat (sizeof Size_type))
       (take (length (m_body m) - sizeof Size_type) (m_body m)) m).
Proof.
  intros Hsize Hshort. unfold stored_length in *.
  unfold extract_string, extract, bind.
  rewrite extract_to_buffer_returns by (simpl in *; lia).
  replace (Z.to_nat (body_length m - Z.of_nat (sizeof Size_type)))
    with (length (m_body m) - sizeof Size_type)%nat by lia.
  unfold ret, short_payload_exception, output_resize.
  destruct (string_resize _) as [e|]; [done|].
  unfold ret. cbv beta iota.
  rewrite extract_to_buffer_underflow; [done|].
  simpl. rewrite length_take. simpl in *. lia.
Qed.

Lemma extract_string_empty_payload body m :
  m_body m = body ++ wire_bytes (Text []) ->
  body_length m <= header_max ->
  extract_string Header_size_type m
  = (Thrown out_of_range, with_contents (Z.of_nat (length body)) body m).
Proof.
  intros Hbody Hfits.
  unfold extract_string, bind.
  rewrite (extract_returns body (word.of_Z (Z.of_nat (length (@nil byte))) : Size_type))
    by done.
  rewrite unsigned_size_of_Z by done.
  rewrite output_resize_returns by done.
  rewrite extract_to_buffer_zero; [done|].
  simpl. rewrite Hbody in Hfits. rewrite length_app in Hfits. lia.
Qed.

(** *** Underflow *)

Lemma short_payload_exception_cases n :
  0 < n ->
  short_payload_exception n
  = if n >? string_max_size then length_error string_too_long
    else if allocates n then length_error "Not enough data to extract"
    else bad_alloc.
Proof.
  intros Hn. unfold short_payload_exception, string_resize.
  destruct (Z.eqb_spec n 0); [lia|].
  destruct (n >? string_max_size); [done|]. by destruct (allocates n).
Qed.

(** C3, as amended: [extract_to_buffer] and [extract] of standard-layout
    data that ask for more bytes than the body holds throw
    [std::length_error] and leave the Message as it was.
    [extract<std::string>] does the same when the body is too short to hold
    the 64-bit length. When the body, no longer than the size field can
    express, holds the length and the length exceeds the bytes that remain
    below it, [extract<std::string>] throws after the length field has been
    taken off the body and the header size set to what is left: the
    [std::length_error] of [std::string::resize] if the length is beyond
    [max_size()], [std::bad_alloc] if the string cannot get its storage, and
    otherwise the [std::length_error] of [extract_to_buffer]. *)
Theorem extract_underflow_spec m :
  (forall buffer_size,
      body_length m < buffer_size ->
      extract_to_buffer Header_size_type buffer_size m
      = (Thrown (length_error "Not enough data to extract"), m))
  /\ (forall (Data_type : Type) (layout : Standard_layout Data_type),
         body_length m < Z.of_nat (sizeof Data_type) ->
         extract Header_size_type Data_type m
         = (Thrown (length_error "Not enough data to extract"), m))
  /\ (body_length m < Z.of_nat (sizeof Size_type) ->
      extract_string Header_size_type m
      = (Thrown (length_error "Not enough data to extract"), m))
  /\ (Z.of_nat (sizeof Size_type) <= body_length m <= header_max ->
      body_length m - Z.of_nat (sizeof Size_type) < stored_length m ->
      extract_string Header_size_type m
      = (Thrown
           (if stored_length m >? string_max_size
            then length_error string_too_long
            else if allocates (stored_length m)
                 then length_error "Not enough data to extract"
                 else bad_alloc),
         with_contents (body_length m - Z.of_nat (sizeof Size_type))
           (take (length (m_body m) - sizeof Size_type) (m_body m)) m)).
Proof.
  split; [|split; [|split]].
  - intros buffer_size. apply extract_to_buffer_underflow.
  - intros Data_type layout. apply extract_underflow.
  - apply extract_string_no_length.
  - intros Hsize Hshort.
    rewrite <- short_payload_exception_cases by lia.
    by apply extract_string_short_payload.
Qed.

(** *** Overflow *)

(** C5, as amended: a push of a buffer or of standard-layout data that would
    take the body beyond the largest value of the header's size field throws
    [std::length_error] and leaves the Message as it was. A push of a
    non-empty string that, with its 64-bit length, would take the body
    beyond that value throws [std::length_error] as well: it leaves the
    Message as it was when the characters alone do not fit, and when only
    the length does not fit the characters have been appended and the header
    size updated. *)
Theorem push_overflow_spec m :
  (forall buffer,
      body_length m + Z.of_nat (length buffer) < 2 ^ size_t_bits ->
      header_max < body_length m + Z.of_nat (length buffer) ->
      push_back_buffer Header_size_type buffer m
      = (Thrown (length_error "Storing too much data to message"), m))
  /\ (forall (Data_type : Type) (layout : Standard_layout Data_type) (data : Data_type),
         body_length m + Z.of_nat (length (object_bytes data)) < 2 ^ size_t_bits ->
         header_max < body_length m + Z.of_nat (length (object_bytes data)) ->
         push_back Header_size_type data m
         = (Thrown (length_error "Storing too much data to message"), m))
  /\ (forall string,
         string <> [] ->
         body_length m + Z.of_nat (length string) + Z.of_nat (sizeof Size_type)
           < 2 ^ size_t_bits ->
         header_max
           < body_length m + Z.of_nat (length string) + Z.of_nat (sizeof Size_type) ->
         push_back_string Header_size_type string m
         = (Thrown (length_error "Storing too much data to message"),
            if body_length m + Z.of_nat (length string) <=? header_max
            then with_contents (body_length m + Z.of_nat (length string))
                   (m_body m ++ string) m
            else m)).
Proof.
  split; [|split].
  - intros buffer. apply push_back_buffer_overflow.
  - intros Data_type layout data. apply push_back_buffer_overflow.
  - intros string Hnonempty Hspace Hover.
    destruct (Z.leb_spec (body_length m + Z.of_nat (length string)) header_max).
    + by apply push_back_string_length_overflow.
    + apply push_back_string_bytes_overflow; lia.
Qed.

(** *** The empty string *)

(** C6, what the code does for the empty string: [push_back] of it throws
    [std::out_of_range] from [m_body.at(size)] before any length is stored,
    and [extract<std::string>] on a body that ends in the length 0 throws
    [std::out_of_range] after it has removed the length. *)
Theorem empty_string_out_of_range (id : Id_type) (internal_id : Internal_id) :
  push_back_string Header_size_type [] (new_message id internal_id)
  = (Thrown out_of_range, new_message id internal_id)
  /\ extract_string Header_size_type
       (with_contents (Z.of_nat (length (wire_bytes (Text []))))
          (wire_bytes (Text [])) (new_message id internal_id))
     = (Thrown out_of_range, new_message id internal_id).
Proof.
  assert (8 <= header_max) by (destruct Header_size_type; vm_compute; congruence).
  pose proof (numeric_limits_max_range Header_size_type).
  split.
  - apply push_back_string_empty. simpl. lia.
  - by rewrite (extract_string_empty_payload []).
Qed.


(** *** What every member function leaves alone *)

Lemma same_ids_refl m : same_ids m m.
Proof. by split. Qed.

Lemma same_ids_trans m1 m2 m3 : same_ids m1 m2 -> same_ids m2 m3 -> same_ids m1 m3.
Proof. intros [? ?] [? ?]. split; congruence. Qed.

Lemma keeps_ids_ret {A} (a : A) : keeps_ids (ret a).
Proof. intros m. apply same_ids_refl. Qed.

Lemma keeps_ids_throw {A} e : keeps_ids (@throw _ _ A e).
Proof. intros m. apply same_ids_refl. Qed.

Lemma keeps_ids_bind {A B} (c : Method A) (k : A -> Method B) :
  keeps_ids c -> (forall a, keeps_ids (k a)) -> keeps_ids (bind c k).
Proof.
  intros Hc Hk m. unfold bind. specialize (Hc m).
  destruct (c m) as [[a|e] m']; simpl in *; [|done].
  eapply same_ids_trans; [exact Hc | apply Hk].
Qed.

Lemma keeps_ids_body_size : keeps_ids body_size.
Proof. intros m. apply same_ids_refl. Qed.

Lemma keeps_ids_get_body : keeps_ids get_body.
Proof. intros m. apply same_ids_refl. Qed.

Lemma keeps_ids_set_body body : keeps_ids (set_body body).
Proof. intros m. by split. Qed.

Lemma keeps_ids_set_m_size value : keeps_ids (set_m_size value).
Proof. intros m. by split. Qed.

Lemma keeps_ids_checked_cast Cast_to value : keeps_ids (checked_cast Cast_to value).
Proof.
  unfold checked_cast.
  destruct (negb _); [apply keeps_ids_throw | apply keeps_ids_ret].
Qed.

Create HintDb keeps_ids.
Hint Resolve keeps_ids_ret keeps_ids_throw keeps_ids_body_size keeps_ids_get_body
  keeps_ids_set_body keeps_ids_set_m_size keeps_ids_checked_cast : keeps_ids.

Ltac keeps_ids :=
  repeat first
    [ progress auto with keeps_ids
    | apply keeps_ids_bind; [|intros ?]
    | match goal with
      | |- keeps_ids (if ?b then _ else _) => destruct b
      end ].

Lemma keeps_ids_resize_body new_size : keeps_ids (resize_body new_size).
Proof. unfold resize_body. keeps_ids. Qed.

Lemma keeps_ids_body_at pos : keeps_ids (body_at pos).
Proof. unfold body_at. keeps_ids. Qed.

Lemma keeps_ids_memcpy_to_body pos buffer : keeps_ids (memcpy_to_body pos buffer).
Proof. unfold memcpy_to_body. keeps_ids. Qed.

Lemma keeps_ids_memcpy_from_body pos buffer_size :
  keeps_ids (memcpy_from_body pos buffer_size).
Proof. unfold memcpy_from_body. keeps_ids. Qed.

Hint Resolve keeps_ids_resize_body keeps_ids_body_at keeps_ids_memcpy_to_body
  keeps_ids_memcpy_from_body : keeps_ids.

Lemma keeps_ids_push_back_buffer buffer :
  keeps_ids (push_back_buffer Header_size_type buffer).
Proof. unfold push_back_buffer. keeps_ids. Qed.

Lemma keeps_ids_extract_to_buffer buffer_size :
  keeps_ids (extract_to_buffer Header_size_type buffer_size).
Proof. unfold extract_to_buffer. keeps_ids. Qed.

Hint Resolve keeps_ids_push_back_buffer keeps_ids_extract_to_buffer : keeps_ids.

Lemma keeps_ids_push_back_string string :
  keeps_ids (push_back_string Header_size_type string).
Proof. unfold push_back_string, push_back_string_view, push_back. keeps_ids. Qed.

Lemma keeps_ids_extract Data_type (layout : Standard_layout Data_type) :
  keeps_ids (extract Header_size_type Data_type).
Proof. unfold extract. keeps_ids. Qed.

Lemma keeps_ids_output_resize n : keeps_ids (output_resize n).
Proof. unfold output_resize. destruct (string_resize n); keeps_ids. Qed.

Lemma keeps_ids_extract_string : keeps_ids (extract_string Header_size_type).
Proof.
  unfold extract_string, extract. keeps_ids. apply keeps_ids_output_resize.
Qed.

Lemma keeps_ids_clear : keeps_ids clear.
Proof. unfold clear. keeps_ids. Qed.

Lemma mutate_same_ids call m : same_ids m (mutate Header_size_type call m).
Proof.
  destruct call; simpl.
  - apply keeps_ids_push_back_buffer.
  - apply keeps_ids_push_back_buffer.
  - apply keeps_ids_push_back_string.
  - apply keeps_ids_extract_to_buffer.
  - apply keeps_ids_extract.
  - apply keeps_ids_extract_string.
  - apply keeps_ids_clear.
  - apply keeps_ids_resize_body.
Qed.

(** C9: whatever calls of [push_back], [extract], [clear] (and
    [resize_body]) are made on a Message, and whether they return or throw,
    the header's [m_id] and [m_internal_id] stay what they were; a call
    changes nothing but the header's size field and the body. *)
Theorem mutations_keep_ids calls m :
  m_id (m_header (mutate_all Header_size_type calls m)) = m_id (m_header m)
  /\ m_internal_id (m_header (mutate_all Header_size_type calls m))
     = m_internal_id (m_header m).
Proof.
  change (same_ids m (mutate_all Header_size_type calls m)).
  revert m. induction calls as [|call calls IH]; intros m; simpl.
  - apply same_ids_refl.
  - eapply same_ids_trans; [apply mutate_same_ids | apply IH].
Qed.


(** *** The size field *)

Lemma sized_with_contents body m :
  Z.of_nat (length body) <= header_max ->
  sized Header_size_type (with_contents (Z.of_nat (length body)) body m).
Proof. by split. Qed.

Lemma size_invariant_in_range_sized m :
  size_invariant m -> size_field_in_range Header_size_type m ->
  sized Header_size_type m.
Proof.
  unfold size_invariant, size_field_in_range. intros Hsize Hrange.
  split; [done|]. lia.
Qed.

Lemma push_back_buffer_sized buffer m :
  sized Header_size_type m ->
  body_length m + Z.of_nat (length buffer) < 2 ^ size_t_bits ->
  sized Header_size_type (snd (push_back_buffer Header_size_type buffer m)).
Proof.
  intros [Hsize Hfits] Hspace.
  destruct (decide (buffer = [])) as [->|Hnonempty].
  { by rewrite push_back_buffer_empty. }
  destruct (Z_le_gt_dec (body_length m + Z.of_nat (length buffer)) header_max).
  - rewrite push_back_buffer_returns by done. simpl.
    rewrite <- Nat2Z.inj_add, <- length_app.
    apply sized_with_contents. rewrite length_app. lia.
  - rewrite push_back_buffer_overflow by lia. by split.
Qed.

Lemma extract_to_buffer_sized buffer_size m :
  sized Header_size_type m ->
  sized Header_size_type (snd (extract_to_buffer Header_size_type buffer_size m)).
Proof.
  intros [Hsize Hfits].
  pose proof (numeric_limits_max_range Header_size_type).
  unfold_method.
  destruct (Z.gtb_spec buffer_size (body_length m)); [by split|].
  pose proof (Z.mod_pos_bound (body_length m - buffer_size) (2 ^ size_t_bits) eq_refl)
    as Hwrap.
  fold (size_t_wrap (body_length m - buffer_size)) in Hwrap.
  destruct (Z.geb_spec (size_t_wrap (body_length m - buffer_size)) (body_length m));
    [by split|].
  simpl. rewrite length_resize, Z2Nat.id by lia.
  rewrite static_cast_in_range by lia.
  rewrite Z.eqb_refl. simpl.
  split.
  - unfold size_invariant. simpl. rewrite length_resize. lia.
  - simpl. rewrite length_resize. lia.
Qed.

Lemma keeps_sized_bind {A B} (c : Method A) (k : A -> Method B) :
  keeps_sized c -> (forall a, keeps_sized (k a)) -> keeps_sized (bind c k).
Proof.
  intros Hc Hk m Hm. unfold bind. specialize (Hc m Hm).
  destruct (c m) as [[a|e] m']; simpl in *; [|done].
  by apply Hk.
Qed.

Lemma keeps_sized_ret {A} (a : A) : keeps_sized (ret a).
Proof. by intros m Hm. Qed.

Lemma keeps_sized_extract Data_type (layout : Standard_layout Data_type) :
  keeps_sized (extract Header_size_type Data_type).
Proof.
  unfold extract. apply keeps_sized_bind.
  - intros m. apply extract_to_buffer_sized.
  - intros buffer. apply keeps_sized_ret.
Qed.

Lemma keeps_sized_output_resize n : keeps_sized (output_resize n).
Proof. unfold output_resize. by destruct (string_resize n); intros m Hm. Qed.

Lemma keeps_sized_extract_string : keeps_sized (extract_string Header_size_type).
Proof.
  unfold extract_string. apply keeps_sized_bind.
  - apply keeps_sized_extract.
  - intros n. apply keeps_sized_bind.
    + apply keeps_sized_output_resize.
    + intros _ m. apply extract_to_buffer_sized.
Qed.

Lemma push_back_string_sized string m :
  sized Header_size_type m ->
  body_length m + Z.of_nat (length string) + Z.of_nat (sizeof Size_type)
    < 2 ^ size_t_bits ->
  sized Header_size_type (snd (push_back_string Header_size_type string m)).
Proof.
  intros Hm Hspace.
  unfold push_back_string, push_back_string_view, bind.
  pose proof (push_back_buffer_sized string m Hm) as Hfirst.
  destruct (decide (string = [])) as [->|Hnonempty].
  { rewrite push_back_buffer_empty by apply Hm. done. }
  destruct (Z_le_gt_dec (body_length m + Z.of_nat (length string)) header_max).
  - rewrite push_back_buffer_returns in * by done.
    apply push_back_buffer_sized; [apply Hfirst; lia|].
    cbn [m_body with_contents snd]. rewrite length_app, object_bytes_length.
    fold Size_type. lia.
  - rewrite push_back_buffer_overflow by lia. done.
Qed.

Lemma clear_sized m : sized Header_size_type (snd (clear m)).
Proof.
  pose proof (numeric_limits_max_range Header_size_type).
  split; [done|]. simpl. lia.
Qed.

Lemma mutate_sized call m :
  is_resize_body call = false ->
  in_address_space m call ->
  sized Header_size_type m ->
  sized Header_size_type (mutate Header_size_type call m).
Proof.
  unfold in_address_space.
  destruct call; intros Hcall Hspace Hm; cbn [mutate pushed_size] in *.
  - by apply push_back_buffer_sized.
  - unfold push_back. by apply push_back_buffer_sized.
  - apply push_back_string_sized; [done|lia].
  - by apply extract_to_buffer_sized.
  - by apply keeps_sized_extract.
  - by apply keeps_sized_extract_string.
  - apply clear_sized.
  - done.
Qed.

Lemma mutate_all_sized calls m :
  Forall (fun call => is_resize_body call = false) calls ->
  all_in_address_space Header_size_type m calls ->
  sized Header_size_type m ->
  sized Header_size_type (mutate_all Header_size_type calls m).
Proof.
  revert m. induction calls as [|call calls IH]; intros m Hcalls Hspace Hm; [done|].
  inversion Hcalls as [|? ? Hcall Hcalls']; subst.
  destruct Hspace as [Hspace Hspace'].
  simpl. apply IH; [done|done|]. by apply mutate_sized.
Qed.

(** C2, as amended: on a Message whose size field equals its body length,
    after any sequence of [push_back], [extract] and [clear] calls, returning
    or throwing, the size field again equals the body length. (Calls copy
    from buffers that fit beside the body in the address space.)
    [resize_body] is the exception: see [resize_body_keeps_header]. *)
Theorem size_invariant_after_calls calls m :
  size_invariant m ->
  size_field_in_range Header_size_type m ->
  Forall (fun call => is_resize_body call = false) calls ->
  all_in_address_space Header_size_type m calls ->
  size_invariant (mutate_all Header_size_type calls m).
Proof.
  intros Hsize Hrange Hcalls Hspace.
  apply (mutate_all_sized calls m); [done|done|].
  by apply size_invariant_in_range_sized.
Qed.

(** [resize_body] resizes the body and leaves the whole header, its size
    field included, as it was. *)
Lemma resize_body_keeps_header new_size m :
  0 <= new_size ->
  m_header (snd (resize_body new_size m)) = m_header m
  /\ Z.of_nat (length (m_body (snd (resize_body new_size m)))) = new_size.
Proof.
  intros Hsize. split; [done|].
  simpl. rewrite length_resize. lia.
Qed.


(** *** Round trip *)

Lemma wire_size_length v : wire_size v = Z.of_nat (length (wire_bytes v)).
Proof.
  destruct v as [Data_type layout layout_ok data|string]; simpl.
  - by rewrite object_bytes_length.
  - rewrite length_app, length_le_split. lia.
Qed.

Lemma push_value_returns v m :
  is_empty_text v = false ->
  body_length m + wire_size v <= header_max ->
  push_value Header_size_type v m
  = (Returned tt,
     with_contents (body_length m + wire_size v) (m_body m ++ wire_bytes v) m).
Proof.
  destruct v as [Data_type layout layout_ok data|string]; intros Hnonempty Hfits.
  - by apply push_back_returns.
  - cbn [push_value wire_size] in *. rewrite Z.add_assoc.
    apply push_back_string_returns; [by destruct string | lia].
Qed.

Lemma extract_value_returns body v m :
  m_body m = body ++ wire_bytes v ->
  is_empty_text v = false ->
  string_obtainable v ->
  body_length m <= header_max ->
  extract_value Header_size_type (type_of v) m
  = (Returned v, with_contents (Z.of_nat (length body)) body m).
Proof.
  destruct v as [Data_type layout layout_ok data|string];
    intros Hbody Hnonempty Hobtainable Hfits; cbn [extract_value type_of];
    unfold bind.
  - by rewrite (extract_returns body data).
  - rewrite (extract_string_returns body string); [done|done| |done|done].
    by destruct string.
Qed.

Lemma extract_values_app ts1 ts2 m :
  extract_values Header_size_type (ts1 ++ ts2) m
  = bind (extract_values Header_size_type ts1)
      (fun vs1 =>
         bind (extract_values Header_size_type ts2)
           (fun vs2 => ret (vs1 ++ vs2))) m.
Proof.
  revert m. induction ts1 as [|t ts1 IH]; intros m; simpl; unfold bind in *.
  - unfold ret. by destruct (extract_values Header_size_type ts2 m) as [[vs2|e] m'].
  - destruct (extract_value Header_size_type t m) as [[v|e] m1]; [|done].
    rewrite IH.
    destruct (extract_values Header_size_type ts1 m1) as [[vs1|e] m2]; [|done].
    unfold ret.
    by destruct (extract_values Header_size_type ts2 m2) as [[vs2|e] m3].
Qed.

(** X21: standard-layout values and non-empty strings [v1 .. vn] pushed in
    that order onto a Message whose size field equals its body length, and
    that has room for them below the largest value of the size field, are
    all stored; if the strings can be created when they are read back, [n]
    extracts with the matching types in reverse order then return
    [vn .. v1] and leave the Message as it was before the pushes, so with an
    empty body if it was empty. *)
Theorem push_extract_round_trip vs m :
  size_invariant m ->
  Forall (fun v => is_empty_text v = false) vs ->
  Forall string_obtainable vs ->
  body_length m + total_wire_size vs <= header_max ->
  fst (push_values Header_size_type vs m) = Returned tt
  /\ extract_values Header_size_type (rev (map type_of vs))
       (snd (push_values Header_size_type vs m))
     = (Returned (rev vs), m).
Proof.
  revert m. induction vs as [|v vs IH]; intros m Hsize Hnonempty Hobtainable Hfits.
  { by split. }
  inversion Hnonempty as [|? ? Hv Hvs]; subst.
  inversion Hobtainable as [|? ? Hov Hovs]; subst.
  cbn [total_wire_size foldr] in Hfits. fold (total_wire_size vs) in Hfits.
  assert (0 <= total_wire_size vs) as Hrest.
  { clear. induction vs as [|v vs IH]; simpl; [done|].
    rewrite wire_size_length. fold (total_wire_size vs). lia. }
  pose proof (wire_size_length v) as Hwire.
  cbn [push_values map rev]. unfold bind at 1 2.
  rewrite push_value_returns by (done || lia).
  set (m1 := with_contents (body_length m + wire_size v) (m_body m ++ wire_bytes v) m).
  assert (body_length m1 = body_length m + wire_size v) as Hlength.
  { unfold m1. cbn [m_body with_contents]. rewrite length_app. lia. }
  destruct (IH m1) as [Hpushed Hextracted].
  { unfold size_invariant. rewrite Hlength. done. }
  { done. }
  { done. }
  { lia. }
  split; [done|].
  rewrite extract_values_app. unfold bind at 1. rewrite Hextracted.
  cbn [extract_values]. unfold bind at 1 2.
  rewrite (extract_value_returns (m_body m) v m1) by (done || lia).
  unfold bind, ret. cbn [extract_values]. f_equal.
  unfold m1, with_contents. cbn [m_header m_id m_internal_id].
  rewrite <- Hsize. apply with_contents_same.
Qed.

(** C4, what the code does when one of the values is the empty string: the
    push of the empty string throws [std::out_of_range] from
    [m_body.at(size)], so a sequence that starts with it stores nothing on a
    new Message, and one that has it after values that fit stops there,
    with only the values before it stored. There is nothing to extract it
    from. *)
Theorem round_trip_stops_at_empty_string (id : Id_type) (internal_id : Internal_id) vs :
  push_values Header_size_type (Text [] :: vs) (new_message id internal_id)
  = (Thrown out_of_range, new_message id internal_id)
  /\ (forall v,
         is_empty_text v = false ->
         wire_size v <= header_max ->
         push_values Header_size_type (v :: Text [] :: vs) (new_message id internal_id)
         = (Thrown out_of_range,
            with_contents (wire_size v) (wire_bytes v) (new_message id internal_id))).
Proof.
  split.
  - cbn [push_values push_value]. unfold bind.
    rewrite push_back_string_empty; [done|].
    pose proof (numeric_limits_max_range Header_size_type). simpl. lia.
  - intros v Hnonempty Hfits. cbn [push_values]. unfold bind at 1.
    rewrite push_value_returns by (done || (simpl; lia)).
    cbn [push_value]. unfold bind.
    rewrite push_back_string_empty.
    + done.
    + cbn [m_body with_contents new_message]. rewrite app_nil_l.
      rewrite <- wire_size_length. done.
Qed.

(** *** What a single push or extract can do *)

(** X11: [push_back_buffer] returns exactly when the buffer is not empty and
    fits below the largest value of the size field; it then appends the
    buffer to the body and sets the size field to the new length. Whenever
    it throws, the Message is as it was before the call. *)
Theorem push_back_buffer_outcome buffer m :
  body_length m + Z.of_nat (length buffer) < 2 ^ size_t_bits ->
  (fst (push_back_buffer Header_size_type buffer m) = Returned tt
   <-> buffer <> [] /\ body_length m + Z.of_nat (length buffer) <= header_max)
  /\ (fst (push_back_buffer Header_size_type buffer m) = Returned tt ->
      snd (push_back_buffer Header_size_type buffer m)
      = with_contents (body_length m + Z.of_nat (length buffer))
          (m_body m ++ buffer) m)
  /\ ((exists e, fst (push_back_buffer Header_size_type buffer m) = Thrown e) ->
      snd (push_back_buffer Header_size_type buffer m) = m).
Proof.
  intros Hspace.
  destruct (Z_le_gt_dec (body_length m + Z.of_nat (length buffer)) header_max)
    as [Hfits|Hover].
  - destruct (decide (buffer = [])) as [->|Hnonempty].
    + rewrite push_back_buffer_empty by (simpl in Hfits; lia). simpl.
      split; [|done]. split; [done|]. by intros [? _].
    + rewrite push_back_buffer_returns by done. simpl.
      split; [done|]. split; [done|]. by intros [e He].
  - rewrite push_back_buffer_overflow by lia. simpl.
    split; [|done]. split; [done|]. intros [_ ?]. lia.
Qed.

(** X12: on a Message whose body length is a value of the size field's
    type, [extract_to_buffer] returns exactly when it is asked for at least
    one byte and no more than the body holds. What it returns are the last
    bytes of the body, as many as asked for; the body keeps the bytes before
    them and the size field is set to their number. Whenever it throws, the
    Message is as it was before the call. *)
Theorem extract_to_buffer_outcome buffer_size m :
  0 <= buffer_size ->
  body_length m <= header_max ->
  ((exists buffer, fst (extract_to_buffer Header_size_type buffer_size m) = Returned buffer)
   <-> 0 < buffer_size <= body_length m)
  /\ (forall buffer,
         fst (extract_to_buffer Header_size_type buffer_size m) = Returned buffer ->
         m_body m = m_body (snd (extract_to_buffer Header_size_type buffer_size m)) ++ buffer
         /\ Z.of_nat (length buffer) = buffer_size
         /\ size_invariant (snd (extract_to_buffer Header_size_type buffer_size m)))
  /\ ((exists e, fst (extract_to_buffer Header_size_type buffer_size m) = Thrown e) ->
      snd (extract_to_buffer Header_size_type buffer_size m) = m).
Proof.
  intros Hsize Hfits.
  destruct (Z_lt_le_dec (body_length m) buffer_size) as [Hunder|Henough].
  { rewrite extract_to_buffer_underflow by done. simpl.
    split; [|done]. split; [by intros [? ?] | lia]. }
  destruct (decide (buffer_size = 0)) as [->|Hpositive].
  { rewrite extract_to_buffer_zero by done. simpl.
    split; [|done]. split; [by intros [? ?] | lia]. }
  rewrite extract_to_buffer_returns by lia. simpl.
  split; [split; [lia | eauto] |]. split; [|by intros [e He]].
  intros buffer [= <-]. rewrite take_drop. split; [done|].
  unfold size_invariant. simpl. rewrite length_drop, length_take. lia.
Qed.

(** X13: two pushes one after the other store what one push of the two
    buffers joined stores. *)
Theorem push_back_buffer_twice buffer1 buffer2 m :
  buffer1 <> [] ->
  buffer2 <> [] ->
  body_length m + Z.of_nat (length buffer1) + Z.of_nat (length buffer2) <= header_max ->
  bind (push_back_buffer Header_size_type buffer1)
    (fun _ => push_back_buffer Header_size_type buffer2) m
  = push_back_buffer Header_size_type (buffer1 ++ buffer2) m.
Proof.
  intros Hnonempty1 Hnonempty2 Hfits. unfold bind.
  rewrite (push_back_buffer_returns buffer1) by (done || lia).
  rewrite (push_back_buffer_returns buffer2)
    by (done || (cbn [m_body with_contents]; rewrite length_app; lia)).
  rewrite (push_back_buffer_returns (buffer1 ++ buffer2));
    [| by destruct buffer1 | rewrite length_app; lia].
  cbn [m_body m_header m_id m_internal_id with_contents].
  rewrite !length_app, <- app_assoc. unfold with_contents.
  do 3 f_equal. lia.
Qed.

(** X14: two extracts one after the other return the two parts of what one
    extract of both sizes returns, the later extract giving the earlier
    bytes, and leave the same Message. *)
Theorem extract_to_buffer_twice size1 size2 m :
  0 < size1 ->
  0 < size2 ->
  size1 + size2 <= body_length m ->
  body_length m <= header_max ->
  bind (extract_to_buffer Header_size_type size1)
    (fun last =>
       bind (extract_to_buffer Header_size_type size2)
         (fun before => ret (before ++ last))) m
  = extract_to_buffer Header_size_type (size1 + size2) m.
Proof.
  intros Hsize1 Hsize2 Henough Hfits. unfold bind.
  rewrite (extract_to_buffer_returns size1) by lia.
  assert (body_length
            (with_contents (body_length m - size1)
               (take (Z.to_nat (body_length m - size1)) (m_body m)) m)
          = body_length m - size1) as Hrest.
  { cbn [m_body with_contents]. rewrite length_take. lia. }
  rewrite (extract_to_buffer_returns size2) by (rewrite Hrest; lia).
  rewrite (extract_to_buffer_returns (size1 + size2)) by lia.
  rewrite Hrest. cbn [m_body m_header m_id m_internal_id with_contents].
  unfold ret, with_contents.
  replace (body_length m - size1 - size2) with (body_length m - (size1 + size2)) by lia.
  rewrite drop_take_drop by lia.
  rewrite take_take, Nat.min_l by lia. done.
Qed.

(** X15: on a Message that satisfies both size invariants, after any
    sequence of [push_back], [extract] and [clear] calls, returning or
    throwing, the body is no longer than the largest value of the header's
    size field. *)
Theorem body_length_bounded_after_calls calls m :
  size_invariant m ->
  size_field_in_range Header_size_type m ->
  Forall (fun call => is_resize_body call = false) calls ->
  all_in_address_space Header_size_type m calls ->
  body_length (mutate_all Header_size_type calls m) <= header_max.
Proof.
  intros Hsize Hrange Hcalls Hspace.
  apply (mutate_all_sized calls m); [done|done|].
  by apply size_invariant_in_range_sized.
Qed.

Lemma static_cast_out_of_range (t : unsigned_integral) (value : Z) :
  numeric_limits_max t < value -> (value =? static_cast t value) = false.
Proof.
  intros Hover. apply Z.eqb_neq. intros Hcast.
  symmetry in Hcast. apply static_cast_fixed_point in Hcast. lia.
Qed.

(** X16: when the body is longer than the size field can express (which
    [resize_body] allows) and stays so after an extract, [extract_to_buffer]
    throws "Value changed when casted" from [checked_cast] only after it has
    cut the bytes off the body: the body is shortened and the header's size
    field is left as it was. *)
Theorem extract_to_buffer_oversized buffer_size m :
  0 < buffer_size <= body_length m ->
  body_length m < 2 ^ size_t_bits ->
  header_max < body_length m - buffer_size ->
  extract_to_buffer Header_size_type buffer_size m
  = (Thrown (length_error "Value changed when casted"),
     {| m_header := m_header m;
        m_body := take (Z.to_nat (body_length m - buffer_size)) (m_body m) |}).
Proof.
  intros Hsize Hspace Hover.
  unfold_method.
  destruct (Z.gtb_spec buffer_size (body_length m)); [lia|].
  rewrite size_t_wrap_small by lia.
  destruct (Z.geb_spec (body_length m - buffer_size) (body_length m)); [lia|].
  rewrite resize_le by lia.
  rewrite length_take, Nat.min_l by lia.
  rewrite Z2Nat.id by lia.
  by rewrite static_cast_out_of_range.
Qed.

(** *** Strings on the wire *)

(** X17: a non-empty string that fits is stored as its characters followed
    by its length in eight bytes, least significant byte first, and the
    size field grows by the number of characters plus eight. *)
Theorem push_back_string_layout string m :
  string <> [] ->
  body_length m + Z.of_nat (length string) + 8 <= header_max ->
  push_back_string Header_size_type string m
  = (Returned tt,
     with_contents (body_length m + Z.of_nat (length string) + 8)
       (m_body m ++ string ++ le_split 8 (Z.of_nat (length string))) m).
Proof.
  intros Hnonempty Hfits.
  pose proof (numeric_limits_max_range Header_size_type).
  rewrite push_back_string_returns by done.
  cbn [wire_bytes]. unfold object_bytes, uint64_layout.
  rewrite unsigned_size_of_Z; [done|].
  change (2 ^ size_t_bits) with 18446744073709551616 in *. lia.
Qed.

(** X18: [extract<std::string>] decodes a body it did not write as well:
    when the body, no longer than the size field can express, ends in eight
    bytes holding a length [n] with at least one and at most as many bytes
    as lie before them, and a string of [n] characters can be created, it
    returns the [n] bytes before the length and leaves the bytes before
    those, with the size field set to their number. *)
Theorem extract_string_decodes m :
  8 <= body_length m <= header_max ->
  0 < stored_length m <= body_length m - 8 ->
  string_resize (stored_length m) = None ->
  extract_string Header_size_type m
  = (Returned
       (drop (Z.to_nat (body_length m - 8 - stored_length m))
          (take (length (m_body m) - 8) (m_body m))),
     with_contents (body_length m - 8 - stored_length m)
       (take (Z.to_nat (body_length m - 8 - stored_length m)) (m_body m)) m).
Proof.
  intros Hsize Hstored Hresize. unfold stored_length in *.
  change (sizeof Size_type) with 8%nat in *.
  unfold extract_string, extract, bind.
  change (Z.of_nat (sizeof Size_type)) with 8.
  rewrite extract_to_buffer_returns by lia.
  replace (Z.to_nat (body_length m - 8)) with (length (m_body m) - 8)%nat by lia.
  unfold ret.
  set (n := word.unsigned _) in *.
  rewrite output_resize_returns by done.
  assert (body_length
            (with_contents (body_length m - 8)
               (take (length (m_body m) - 8) (m_body m)) m)
          = body_length m - 8) as Hrest.
  { cbn [m_body with_contents]. rewrite length_take. lia. }
  rewrite extract_to_buffer_returns by (rewrite Hrest; lia).
  rewrite Hrest. cbn [m_body m_header m_id m_internal_id with_contents].
  unfold with_contents.
  rewrite take_take, Nat.min_l by lia. done.
Qed.

(** *** The ids and the contents are independent *)

Local Abbreviation ignores_ids := (@ignores_ids Id_type Internal_id).

Lemma ignores_ids_ret {A} (a : A) : ignores_ids (ret a).
Proof. by intros id internal_id m. Qed.

Lemma ignores_ids_throw {A} e : ignores_ids (@throw _ _ A e).
Proof. by intros id internal_id m. Qed.

Lemma ignores_ids_bind {A B} (c : Method A) (k : A -> Method B) :
  ignores_ids c -> (forall a, ignores_ids (k a)) -> ignores_ids (bind c k).
Proof.
  intros Hc Hk id internal_id m. unfold bind. rewrite Hc.
  destruct (c m) as [[a|e] m']; simpl; [|done].
  rewrite Hk. by destruct (k a m').
Qed.

Lemma ignores_ids_body_size : ignores_ids body_size.
Proof. by intros id internal_id m. Qed.

Lemma ignores_ids_get_body : ignores_ids get_body.
Proof. by intros id internal_id m. Qed.

Lemma ignores_ids_set_body body : ignores_ids (set_body body).
Proof. by intros id internal_id m. Qed.

Lemma ignores_ids_set_m_size value : ignores_ids (set_m_size value).
Proof. by intros id internal_id m. Qed.

Lemma ignores_ids_checked_cast Cast_to value : ignores_ids (checked_cast Cast_to value).
Proof.
  unfold checked_cast.
  destruct (negb _); [apply ignores_ids_throw | apply ignores_ids_ret].
Qed.

Create HintDb ignores_ids.
Hint Resolve ignores_ids_ret ignores_ids_throw ignores_ids_body_size
  ignores_ids_get_body ignores_ids_set_body ignores_ids_set_m_size
  ignores_ids_checked_cast : ignores_ids.

Ltac ignores_ids :=
  repeat first
    [ progress auto with ignores_ids
    | apply ignores_ids_bind; [|intros ?]
    | match goal with
      | |- Message.ignores_ids (if ?b then _ else _) => destruct b
      end ].

Lemma ignores_ids_resize_body new_size : ignores_ids (resize_body new_size).
Proof. unfold resize_body. ignores_ids. Qed.

Lemma ignores_ids_push_back_buffer buffer :
  ignores_ids (push_back_buffer Header_size_type buffer).
Proof.
  unfold push_back_buffer, resize_body, body_at, memcpy_to_body. ignores_ids.
Qed.

Lemma ignores_ids_extract_to_buffer buffer_size :
  ignores_ids (extract_to_buffer Header_size_type buffer_size).
Proof.
  unfold extract_to_buffer, resize_body, body_at, memcpy_from_body. ignores_ids.
Qed.

Hint Resolve ignores_ids_resize_body ignores_ids_push_back_buffer
  ignores_ids_extract_to_buffer : ignores_ids.

Lemma ignores_ids_output_resize n : ignores_ids (output_resize n).
Proof. unfold output_resize. destruct (string_resize n); ignores_ids. Qed.

Lemma ignores_ids_snd {A} (c : Method A) id internal_id m :
  ignores_ids c -> snd (c (with_ids id internal_id m)) = with_ids id internal_id (snd (c m)).
Proof. intros Hc. by rewrite Hc. Qed.

Lemma mutate_with_ids call id internal_id m :
  mutate Header_size_type call (with_ids id internal_id m)
  = with_ids id internal_id (mutate Header_size_type call m).
Proof.
  destruct call; cbn [mutate]; apply ignores_ids_snd.
  - ignores_ids.
  - unfold push_back. ignores_ids.
  - unfold push_back_string, push_back_string_view, push_back. ignores_ids.
  - ignores_ids.
  - unfold extract. ignores_ids.
  - unfold extract_string, extract. ignores_ids. apply ignores_ids_output_resize.
  - unfold clear. ignores_ids.
  - ignores_ids.
Qed.

(** X20: what [push_back], [extract], [clear] and [resize_body] do to the
    body and the size field does not depend on the ids: setting the ids
    before a sequence of such calls, returning or throwing, leaves the same
    Message as setting them after it. *)
Theorem mutations_ignore_ids calls id internal_id m :
  mutate_all Header_size_type calls (with_ids id internal_id m)
  = with_ids id internal_id (mutate_all Header_size_type calls m).
Proof.
  revert m. induction calls as [|call calls IH]; intros m; [done|].
  simpl. by rewrite mutate_with_ids, IH.
Qed.

End Facts.

End Message_facts.

(** ** Concrete Messages of the chat client *)

Module Message_examples.
Import Cxx Message Chat_client Message_facts.

Local Open Scope byte_scope.

Local Abbreviation Message := (Message Message_id Internal_id).
Local Abbreviation new := (new_message message not_internal).

(** C2, the claim as stated fails: [resize_body(3)] on a new Message makes
    the body three bytes long and leaves the header's size field 0. *)
Lemma resize_body_breaks_size_invariant :
  m_size (m_header (mutate uint32_t (Resize_body 3) new)) = 0
  /\ Z.of_nat (length (m_body (mutate uint32_t (Resize_body 3) new))) = 3
  /\ ~ size_invariant (mutate uint32_t (Resize_body 3) new).
Proof. split; [reflexivity|]. split; [reflexivity|]. intros Hsize. discriminate Hsize. Qed.

(** A push, a failing extract, a string round trip and a clear keep the size
    field equal to the body length. *)
Lemma size_invariant_after_calls_witness :
  size_invariant
    (mutate_all uint32_t
       [Push_back byte char_layout "a";
        Extract_to_buffer 5;
        Push_back_string ["h"; "i"];
        Extract_string;
        Push_back_buffer ["x"; "y"; "z"];
        Clear;
        Extract byte char_layout]
       new).
Proof.
  apply (size_invariant_after_calls uint32_t).
  - reflexivity.
  - vm_compute. split; discriminate.
  - repeat constructor.
  - vm_compute. repeat split.
Defined.

(** C3, the claim as stated fails: the body holds only the length field 5,
    so [extract<std::string>] asks for five bytes that are not there; it
    throws [std::length_error], and the eight bytes of the length are gone
    from the Message. *)
Lemma extract_string_underflow_changes_message :
  extract_string uint32_t
    (with_contents 8 ["005"; "000"; "000"; "000"; "000"; "000"; "000"; "000"] new)
  = (Thrown (length_error "Not enough data to extract"), new)
  /\ new <> with_contents 8 ["005"; "000"; "000"; "000"; "000"; "000"; "000"; "000"] new.
Proof. split; [reflexivity | discriminate]. Qed.

Lemma extract_underflow_spec_witness :
  extract_to_buffer uint32_t 3 (with_contents 2 ["h"; "i"] new)
  = (Thrown (length_error "Not enough data to extract"), with_contents 2 ["h"; "i"] new)
  /\ extract_string uint32_t
       (with_contents 9 ["x"; "005"; "000"; "000"; "000"; "000"; "000"; "000"; "000"] new)
     = (Thrown (length_error "Not enough data to extract"), with_contents 1 ["x"] new)
  /\ extract_string uint32_t
       (with_contents 9 ["x"; "000"; "000"; "000"; "000"; "000"; "000"; "000"; "032"] new)
     = (Thrown bad_alloc, with_contents 1 ["x"] new).
Proof.
  split; [|split].
  - apply (extract_underflow_spec uint32_t (with_contents 2 ["h"; "i"] new)).
    vm_compute. reflexivity.
  - refine (proj2 (proj2 (proj2
             (extract_underflow_spec uint32_t
                (with_contents 9
                   ["x"; "005"; "000"; "000"; "000"; "000"; "000"; "000"; "000"] new))))
             _ _).
    + vm_compute. split; discriminate.
    + vm_compute. reflexivity.
  - refine (proj2 (proj2 (proj2
             (extract_underflow_spec uint32_t
                (with_contents 9
                   ["x"; "000"; "000"; "000"; "000"; "000"; "000"; "000"; "032"] new))))
             _ _).
    + vm_compute. split; discriminate.
    + vm_compute. reflexivity.
Defined.

Lemma push_extract_round_trip_witness :
  fst (push_values uint32_t
         [Fixed byte char_layout char_layout_ok "a";
          Text ["h"; "i"];
          Fixed uint64 uint64_layout uint64_layout_ok (word.of_Z 7)]
         new)
  = Returned tt
  /\ extract_values uint32_t
       (rev (map type_of
               [Fixed byte char_layout char_layout_ok "a";
                Text ["h"; "i"];
                Fixed uint64 uint64_layout uint64_layout_ok (word.of_Z 7)]))
       (snd (push_values uint32_t
               [Fixed byte char_layout char_layout_ok "a";
                Text ["h"; "i"];
                Fixed uint64 uint64_layout uint64_layout_ok (word.of_Z 7)]
               new))
     = (Returned
          (rev [Fixed byte char_layout char_layout_ok "a";
                Text ["h"; "i"];
                Fixed uint64 uint64_layout uint64_layout_ok (word.of_Z 7)]),
        new).
Proof.
  apply (push_extract_round_trip uint32_t).
  - reflexivity.
  - repeat constructor.
  - repeat constructor.
  - vm_compute. discriminate.
Defined.

(** The empty string after a character: the character is stored, the push
    of the string throws. *)
Lemma round_trip_stops_at_empty_string_witness :
  push_values uint32_t
    [Fixed byte char_layout char_layout_ok "a"; Text []; Text ["h"; "i"]] new
  = (Thrown out_of_range, with_contents 1 ["a"] new).
Proof.
  apply (round_trip_stops_at_empty_string uint32_t message not_internal [Text ["h"; "i"]]).
  - reflexivity.
  - vm_compute. discriminate.
Defined.

(** C5, the claim as stated fails: with a 32-bit size field and a body one
    byte short of the largest size, the one character of the string fits
    and its 64-bit length does not. The push throws [std::length_error], and
    the character has been appended and counted in the header. *)
Lemma push_back_string_overflow_changes_message :
  let m : Message :=
    with_contents 4294967294 (replicate (Z.to_nat 4294967294) "000") new in
  numeric_limits_max uint32_t < Z.of_nat (length (m_body m)) + 1 + 8
  /\ push_back_string uint32_t ["a"] m
     = (Thrown (length_error "Storing too much data to message"),
        with_contents 4294967295 (m_body m ++ ["a"]) m)
  /\ m_size (m_header m) = 4294967294
  /\ m_size (m_header (with_contents 4294967295 (m_body m ++ ["a"]) m)) = 4294967295.
Proof.
  intros m.
  assert (Z.of_nat (length (m_body m)) = 4294967294) as Hlength.
  { unfold m. cbn [m_body with_contents]. rewrite length_replicate.
    apply Z2Nat.id. discriminate. }
  change (numeric_limits_max uint32_t) with 4294967295.
  split; [lia|]. split; [|split; reflexivity].
  rewrite (push_back_string_length_overflow uint32_t ["a"] m).
  - rewrite Hlength. reflexivity.
  - discriminate.
  - rewrite Hlength. reflexivity.
  - rewrite Hlength. discriminate.
  - rewrite Hlength. reflexivity.
Qed.

Lemma push_overflow_spec_witness :
  push_back_buffer uint8_t ["x"; "y"; "z"] (with_contents 253 (replicate 253 "000") new)
  = (Thrown (length_error "Storing too much data to message"),
     with_contents 253 (replicate 253 "000") new)
  /\ push_back_string uint8_t ["h"; "i"] (with_contents 250 (replicate 250 "000") new)
     = (Thrown (length_error "Storing too much data to message"),
        with_contents 252 (replicate 250 "000" ++ ["h"; "i"])
          (with_contents 250 (replicate 250 "000") new))
  /\ push_back_string uint8_t ["h"; "i"] (with_contents 254 (replicate 254 "000") new)
     = (Thrown (length_error "Storing too much data to message"),
        with_contents 254 (replicate 254 "000") new).
Proof.
  split; [|split].
  - apply (push_overflow_spec uint8_t (with_contents 253 (replicate 253 "000") new)).
    + vm_compute. reflexivity.
    + vm_compute. reflexivity.
  - refine (proj2 (proj2
             (push_overflow_spec uint8_t (with_contents 250 (replicate 250 "000") new)))
             ["h"; "i"] _ _ _).
    + discriminate.
    + vm_compute. reflexivity.
    + vm_compute. reflexivity.
  - refine (proj2 (proj2
             (push_overflow_spec uint8_t (with_contents 254 (replicate 254 "000") new)))
             ["h"; "i"] _ _ _).
    + discriminate.
    + vm_compute. reflexivity.
    + vm_compute. reflexivity.
Defined.

(** *** Single calls on concrete Messages *)

Lemma push_back_buffer_outcome_witness :
  snd (push_back_buffer uint32_t ["a"; "b"] new) = with_contents 2 ["a"; "b"] new.
Proof.
  apply (push_back_buffer_outcome uint32_t ["a"; "b"] new).
  - vm_compute. reflexivity.
  - reflexivity.
Defined.

Lemma extract_to_buffer_outcome_witness :
  ["x"; "y"; "z"]
  = m_body (snd (extract_to_buffer uint32_t 2 (with_contents 3 ["x"; "y"; "z"] new)))
      ++ ["y"; "z"]
  /\ Z.of_nat (length ["y"; "z"]) = 2
  /\ size_invariant (snd (extract_to_buffer uint32_t 2 (with_contents 3 ["x"; "y"; "z"] new))).
Proof.
  apply (extract_to_buffer_outcome uint32_t 2 (with_contents 3 ["x"; "y"; "z"] new)).
  - lia.
  - vm_compute. discriminate.
  - reflexivity.
Defined.

Lemma push_back_buffer_twice_witness :
  bind (push_back_buffer uint32_t ["a"]) (fun _ => push_back_buffer uint32_t ["b"; "c"]) new
  = push_back_buffer uint32_t (["a"] ++ ["b"; "c"]) new.
Proof.
  apply (push_back_buffer_twice uint32_t ["a"] ["b"; "c"] new).
  - discriminate.
  - discriminate.
  - vm_compute. discriminate.
Defined.

Lemma extract_to_buffer_twice_witness :
  bind (extract_to_buffer uint32_t 1)
    (fun last =>
       bind (extract_to_buffer uint32_t 1) (fun before => ret (before ++ last)))
    (with_contents 3 ["x"; "y"; "z"] new)
  = extract_to_buffer uint32_t (1 + 1) (with_contents 3 ["x"; "y"; "z"] new).
Proof.
  apply (extract_to_buffer_twice uint32_t 1 1 (with_contents 3 ["x"; "y"; "z"] new)).
  - lia.
  - lia.
  - vm_compute. discriminate.
  - vm_compute. discriminate.
Defined.

Lemma body_length_bounded_after_calls_witness :
  Z.of_nat
    (length
       (m_body
          (mutate_all uint8_t
             [Push_back_buffer (replicate 200 "000");
              Push_back_string (replicate 60 "a");
              Extract_to_buffer 10;
              Push_back_buffer (replicate 70 "b")]
             new)))
  <= numeric_limits_max uint8_t.
Proof.
  apply (body_length_bounded_after_calls uint8_t).
  - reflexivity.
  - vm_compute. split; discriminate.
  - repeat constructor.
  - vm_compute. repeat split.
Defined.

Lemma extract_to_buffer_oversized_witness :
  extract_to_buffer uint8_t 1 (snd (resize_body 300 new))
  = (Thrown (length_error "Value changed when casted"),
     {| m_header := m_header new; m_body := replicate 299 "000" |}).
Proof.
  apply (extract_to_buffer_oversized uint8_t 1 (snd (resize_body 300 new))).
  - vm_compute. split; [reflexivity | discriminate].
  - vm_compute. reflexivity.
  - vm_compute. reflexivity.
Defined.

Lemma push_back_string_layout_witness :
  push_back_string uint32_t ["h"; "i"] new
  = (Returned tt,
     with_contents 10
       ["h"; "i"; "002"; "000"; "000"; "000"; "000"; "000"; "000"; "000"] new).
Proof.
  apply (push_back_string_layout uint32_t ["h"; "i"] new).
  - discriminate.
  - vm_compute. discriminate.
Defined.

Lemma extract_string_decodes_witness :
  extract_string uint32_t
    (with_contents 11
       ["x"; "h"; "i"; "002"; "000"; "000"; "000"; "000"; "000"; "000"; "000"] new)
  = (Returned ["h"; "i"], with_contents 1 ["x"] new).
Proof.
  apply (extract_string_decodes uint32_t
           (with_contents 11
              ["x"; "h"; "i"; "002"; "000"; "000"; "000"; "000"; "000"; "000"; "000"] new)).
  - vm_compute. split; discriminate.
  - vm_compute. split; [reflexivity | discriminate].
  - reflexivity.
Defined.

End Message_examples.
